(** * Non-neural inflection baseline: alignment, rule extraction, rule application

    A shallow embedding of [nonneural_tur.py]: the Hamming scorer, the
    memoized Levenshtein aligner, the segmenter [alignprs], the rule
    extractor [prefix_suffix_rules_get] and the rule applier
    [apply_best_rule], followed by the properties established about them.

    Python strings are lists of characters; Python numbers (the costs are
    [int] and [float] values) are kept abstract in a record of operations
    [arith], instantiated below with IEEE binary64 floats (what the
    interpreter computes with) and with exact rationals. *)

From Stdlib Require Import Ascii String ZArith Lia Bool Arith PeanoNat List.
From Stdlib Require Import Permutation QArith Qcanon Floats.
Import ListNotations.

Local Open Scope list_scope.
Local Open Scope nat_scope.

(* ================================================================= *)
(** ** Strings *)

Definition str := list ascii.

(** String literals are written with [$ "..."]. *)
Definition lit (s : string) : str := list_ascii_of_string s.
Notation "$ s" := (lit s) (at level 1, format "$ s").

Definition gap : ascii := "_"%char.
Definition lmark : ascii := "<"%char.
Definition rmark : ascii := ">"%char.

Definition str_eq_dec : forall a b : str, {a = b} + {a <> b} :=
  list_eq_dec ascii_dec.

Definition str_eqb (a b : str) : bool :=
  if str_eq_dec a b then true else false.

(** [s.startswith(p)] *)
Fixpoint starts_with (p s : str) : bool :=
  match p, s with
  | [], _ => true
  | _ :: _, [] => false
  | a :: p', b :: s' => Ascii.eqb a b && starts_with p' s'
  end.

(** [p in s] *)
Fixpoint contains (p s : str) : bool :=
  starts_with p s ||
  match s with
  | [] => false
  | _ :: s' => contains p s'
  end.

(** [s.find(p)]: index of the first occurrence, [None] for Python's -1. *)
Fixpoint find (p s : str) : option nat :=
  if starts_with p s then Some 0
  else match s with
       | [] => None
       | _ :: s' => option_map S (find p s')
       end.

(** Left-to-right scan of [str.replace] for a non-empty pattern.  [skip]
    counts the characters of a match that are still to be dropped. *)
Fixpoint replace_scan (old new : str) (skip : nat) (s : str) : str :=
  match s with
  | [] => []
  | c :: s' =>
      match skip with
      | S k => replace_scan old new k s'
      | O => if starts_with old s
             then new ++ replace_scan old new (length old - 1) s'
             else c :: replace_scan old new 0 s'
      end
  end.

(** [s.replace(old, new)].  Every non-overlapping occurrence is replaced;
    an empty [old] matches before every character and at the end. *)
Definition replace (old new s : str) : str :=
  match old with
  | [] => new ++ flat_map (fun c => c :: new) s
  | _ :: _ => replace_scan old new 0 s
  end.

(** [s.lstrip(c)] for a one-character set. *)
Fixpoint lstrip (c : ascii) (s : str) : str :=
  match s with
  | [] => []
  | x :: s' => if Ascii.eqb x c then lstrip c s' else s
  end.

(** [s[a:b]] and [s[a:]] for non-negative indices. *)
Definition slice (a b : nat) (s : str) : str := firstn (b - a) (skipn a s).
Definition slice_from (a : nat) (s : str) : str := skipn a s.

(* ================================================================= *)
(** ** Hamming scorer *)

(** [sum(1 for x,y in zip(s,t) if x != y)] *)
Definition hamming (s t : str) : nat :=
  list_sum
    (map (fun _ => 1)
         (filter (fun xy => negb (Ascii.eqb (fst xy) (snd xy))) (combine s t))).

(* ================================================================= *)
(** ** Numbers *)

(** The operations the aligner performs on costs.  [zero] is the integer
    [0]; [of_len] is the conversion an addition [cost + len(...)] applies
    to the length; [lt] is [<] as used by [min]; [lit_1_0] and [lit_1_1]
    are the literals [1.0] and [1.1]. *)
Record arith : Type := Arith {
  num : Type;
  zero : num;
  add : num -> num -> num;
  sub : num -> num -> num;
  of_len : nat -> num;
  lt : num -> num -> bool;
  lit_1_0 : num;
  lit_1_1 : num
}.

(** IEEE binary64, the arithmetic of Python's [float]. *)
Definition float_arith : arith :=
  {| num := float;
     zero := 0%float;
     add := PrimFloat.add;
     sub := PrimFloat.sub;
     of_len := fun n => PrimFloat.of_uint63 (Uint63.of_Z (Z.of_nat n));
     lt := PrimFloat.ltb;
     lit_1_0 := 0x1p+0%float;
     lit_1_1 := 0x1.199999999999ap+0%float |}.

(** Exact rational arithmetic. *)
Definition Qc_ltb (a b : Qc) : bool :=
  match (a ?= b)%Qc with Lt => true | _ => false end.

Definition Qc_arith : arith :=
  {| num := Qc;
     zero := Q2Qc 0;
     add := Qcplus;
     sub := Qcminus;
     of_len := fun n => Q2Qc (inject_Z (Z.of_nat n));
     lt := Qc_ltb;
     lit_1_0 := Q2Qc 1;
     lit_1_1 := Q2Qc (11 # 10) |}.

(** The laws of exact arithmetic that the memoizer relies on. *)
Record exact_arith (A : arith) : Prop := ExactArith {
  add_assoc_law : forall a b c : num A, add A (add A a b) c = add A a (add A b c);
  add_sub_law : forall a b : num A, sub A (add A a b) a = b;
  lt_add_law : forall a b c : num A, lt A (add A a b) (add A a c) = lt A b c
}.

(* ================================================================= *)
(** ** Edit-distance aligner *)

Section Levenshtein.

Variable A : arith.
Variables inscost delcost substcost : num A.

(** The 5-tuple returned by [lrec]. *)
Definition res : Type := (str * str * str * str * num A)%type.

Definition r0 (r : res) : str := let '(a, _, _, _, _) := r in a.
Definition r1 (r : res) : str := let '(_, b, _, _, _) := r in b.
Definition r4 (r : res) : num A := let '(_, _, _, _, c) := r in c.

(** [min((a, b, c), key = lambda x: x[4])]: the first of the cheapest. *)
Definition min3 (a b c : res) : res :=
  let m := if lt A (r4 b) (r4 a) then b else a in
  if lt A (r4 c) (r4 m) then c else m.

(** The body of [lrec], without the decorator. *)
Fixpoint lrec_plain_rec (srem : str) : str -> str -> str -> num A -> res :=
  fix go (trem spast tpast : str) (cost : num A) {struct trem} : res :=
    match srem with
    | [] => (spast ++ repeat gap (length trem), tpast ++ trem, [], [],
             add A cost (of_len A (length trem)))
    | x :: srem' =>
        match trem with
        | [] => (spast ++ srem, tpast ++ repeat gap (length srem), [], [],
                 add A cost (of_len A (length srem)))
        | y :: trem' =>
            let addcost := if Ascii.eqb x y then zero A else substcost in
            min3 (lrec_plain_rec srem' trem' (spast ++ [x]) (tpast ++ [y])
                    (add A cost addcost))
                 (go trem' (spast ++ [gap]) (tpast ++ [y])
                    (add A cost inscost))
                 (lrec_plain_rec srem' trem (spast ++ [x]) (tpast ++ [gap])
                    (add A cost delcost))
        end
    end.

Definition lrec_plain (spast tpast srem trem : str) (cost : num A) : res :=
  lrec_plain_rec srem trem spast tpast cost.

(** *** The memoizer

    The dictionary [cache] of [memolrec], keyed on [(sr, tr)], holding
    the alignment fragment and the incremental cost. *)
Definition entry : Type := (str * str * num A)%type.
Definition cache : Type := list ((str * str) * entry).

Definition key_eqb (k1 k2 : str * str) : bool :=
  str_eqb (fst k1) (fst k2) && str_eqb (snd k1) (snd k2).

Fixpoint cache_get (k : str * str) (c : cache) : option entry :=
  match c with
  | [] => None
  | (k', e) :: c' => if key_eqb k k' then Some e else cache_get k c'
  end.

Definition cache_set (k : str * str) (e : entry) (c : cache) : cache :=
  (k, e) :: c.

(** [wrap]: on a miss run [func] and store what it returned relative to
    the caller's prefix and cost; then answer from the cache. *)
Definition wrap (func : cache -> res * cache)
    (sp tp sr tr : str) (cost : num A) (c : cache) : res * cache :=
  let '(e, c1) :=
    match cache_get (sr, tr) c with
    | Some e => (e, c)
    | None =>
        let '(r, c') := func c in
        let e := (skipn (length sp) (r0 r), skipn (length tp) (r1 r),
                  sub A (r4 r) cost) in
        (e, cache_set (sr, tr) e c')
    end in
  let '(a, b, d) := e in
  ((sp ++ a, tp ++ b, [], [], add A cost d), c1).

(** [lrec] as decorated: every call, the recursive ones included, goes
    through [wrap]; the three candidates are evaluated left to right. *)
Fixpoint lrec_rec (srem : str)
    : str -> str -> str -> num A -> cache -> res * cache :=
  fix go (trem spast tpast : str) (cost : num A) (c : cache)
      {struct trem} : res * cache :=
    wrap
      (fun c0 =>
         match srem with
         | [] => ((spast ++ repeat gap (length trem), tpast ++ trem, [], [],
                   add A cost (of_len A (length trem))), c0)
         | x :: srem' =>
             match trem with
             | [] => ((spast ++ srem, tpast ++ repeat gap (length srem),
                       [], [], add A cost (of_len A (length srem))), c0)
             | y :: trem' =>
                 let addcost :=
                   if Ascii.eqb x y then zero A else substcost in
                 let '(a1, c1) :=
                   lrec_rec srem' trem' (spast ++ [x]) (tpast ++ [y])
                     (add A cost addcost) c0 in
                 let '(a2, c2) :=
                   go trem' (spast ++ [gap]) (tpast ++ [y])
                     (add A cost inscost) c1 in
                 let '(a3, c3) :=
                   lrec_rec srem' trem (spast ++ [x]) (tpast ++ [gap])
                     (add A cost delcost) c2 in
                 (min3 a1 a2 a3, c3)
             end
         end)
      spast tpast srem trem cost c.

Definition lrec (spast tpast srem trem : str) (cost : num A) (c : cache)
    : res * cache :=
  lrec_rec srem trem spast tpast cost c.

(** [levenshtein(s, t, inscost, delcost, substcost)]; the cache is
    created afresh by the decorator at every call. *)
Definition levenshtein (s t : str) : str * str * num A :=
  let answer := fst (lrec [] [] s t (zero A) []) in
  (r0 answer, r1 answer, r4 answer).

(** The same recursion evaluated without any memoization. *)
Definition levenshtein_plain (s t : str) : str * str * num A :=
  let answer := lrec_plain [] [] s t (zero A) in
  (r0 answer, r1 answer, r4 answer).

End Levenshtein.

Arguments r0 {A} r.
Arguments r1 {A} r.
Arguments r4 {A} r.
Arguments min3 {A} a b c.
Arguments cache_get {A} k c.
Arguments cache_set {A} k e c.
Arguments wrap {A} func sp tp sr tr cost c.

(* ================================================================= *)
(** ** Segmenter *)

(** [len(s) - len(s.lstrip('_'))] *)
Definition leading_gaps (s : str) : nat := length s - length (lstrip gap s).

(** [alignprs(lemma, form)].  The index [len(alemma) - tspace] is never
    negative, both aligned strings having the same length, so the
    truncated subtraction of [nat] is the subtraction of the source. *)
Definition alignprs (A : arith) (lemma form : str)
    : str * str * str * str * str * str :=
  let al := levenshtein A (lit_1_0 A) (lit_1_0 A) (lit_1_1 A) lemma form in
  let alemma := fst (fst al) in
  let aform := snd (fst al) in
  let lspace := Nat.max (leading_gaps alemma) (leading_gaps aform) in
  let tspace := Nat.max (leading_gaps (rev alemma)) (leading_gaps (rev aform)) in
  (slice 0 lspace alemma,
   slice lspace (length alemma - tspace) alemma,
   slice_from (length alemma - tspace) alemma,
   slice 0 lspace aform,
   slice lspace (length alemma - tspace) aform,
   slice_from (length alemma - tspace) aform).

(* ================================================================= *)
(** ** Rule extractor *)

Definition rule : Type := (str * str)%type.

Definition rule_eq_dec : forall a b : rule, {a = b} + {a <> b}.
Proof. decide equality; apply str_eq_dec. Defined.

(** [generate_rules(ins, outs)].  A Python [set] is a duplicate-free list;
    the order of its elements is not fixed by the language, and nothing
    below depends on the order chosen here. *)
Definition generate_rules (ins outs : str) : list rule :=
  let rules :=
    nodup rule_eq_dec
      (map (fun i => (skipn i ins, skipn i outs))
           (seq 0 (Nat.min (length ins) (length outs)))) in
  nodup rule_eq_dec
    (map (fun x => (replace [gap] [] (fst x), replace [gap] [] (snd x))) rules).

(** [prefix_suffix_rules_get(lemma, form)] returns [(prules, srules)]. *)
Definition prefix_suffix_rules_get (A : arith) (lemma form : str)
    : list rule * list rule :=
  let '(lp, lr, ls, fp, fr, fs) := alignprs A lemma form in
  let srules := generate_rules (lr ++ ls ++ [rmark]) (fr ++ fs ++ [rmark]) in
  let prules :=
    if (0 <=? length lp) || (0 <=? length fp)
    then generate_rules ([lmark] ++ lp) ([lmark] ++ fp)
    else [] in
  (prules, srules).

(* ================================================================= *)
(** ** Rule store and rule applier *)

(** [allprules] and [allsrules]: a dictionary from MSD to a dictionary from
    rule to frequency.  A dictionary is the list of its items in insertion
    order, which is the order [.items()] yields them in. *)
Definition ruleset : Type := list (rule * Z).
Definition store : Type := list (str * ruleset).

Fixpoint store_get (msd : str) (st : store) : option ruleset :=
  match st with
  | [] => None
  | (k, v) :: st' => if str_eqb msd k then Some v else store_get msd st'
  end.

(** [msd in st] *)
Definition store_mem (msd : str) (st : store) : bool :=
  match store_get msd st with Some _ => true | None => false end.

(** [[(x[0],x[1],y) for x,y in rules.items() if x[0] in base]] *)
Definition applicable (rules : ruleset) (base : str) : list (str * str * Z) :=
  map (fun xy => (fst (fst xy), snd (fst xy), snd xy))
      (filter (fun xy => contains (fst (fst xy)) base) rules).

(** [max(l, key = ...)]: the first element whose key no later element
    exceeds; [gt a b] is [key(a) > key(b)]. *)
Fixpoint max_from {T : Type} (gt : T -> T -> bool) (best : T) (l : list T) : T :=
  match l with
  | [] => best
  | x :: l' => max_from gt (if gt x best then x else best) l'
  end.

Definition py_max {T : Type} (gt : T -> T -> bool) (l : list T) : option T :=
  match l with
  | [] => None
  | x :: l' => Some (max_from gt x l')
  end.

(** The key [(len(x[0]), x[2], len(x[1]))] of the suffix step, compared as
    Python compares tuples. *)
Definition suffix_key (x : str * str * Z) : nat * Z * nat :=
  (length (fst (fst x)), snd x, length (snd (fst x))).

Definition key_gt (k1 k2 : nat * Z * nat) : bool :=
  let '(a1, b1, c1) := k1 in
  let '(a2, b2, c2) := k2 in
  (a2 <? a1) ||
  ((a1 =? a2) && ((b2 <? b1)%Z || ((b1 =? b2)%Z && (c2 <? c1)))).

Definition suffix_gt (x y : str * str * Z) : bool :=
  key_gt (suffix_key x) (suffix_key y).

(** The key [x[2]] of the prefix step. *)
Definition prefix_gt (x y : str * str * Z) : bool := (snd y <? snd x)%Z.

Definition best_suffix_rule (rules : ruleset) (base : str)
    : option (str * str * Z) :=
  py_max suffix_gt (applicable rules base).

Definition best_prefix_rule (rules : ruleset) (base : str)
    : option (str * str * Z) :=
  py_max prefix_gt (applicable rules base).

(** The block [if msd in allsrules: ...] *)
Definition suffix_step (msd : str) (allsrules : store) (base : str) : str :=
  match store_get msd allsrules with
  | None => base
  | Some rules =>
      match best_suffix_rule rules base with
      | None => base
      | Some bestrule => replace (fst (fst bestrule)) (snd (fst bestrule)) base
      end
  end.

(** The block [if msd in allprules: ...] *)
Definition prefix_step (msd : str) (allprules : store) (base : str) : str :=
  match store_get msd allprules with
  | None => base
  | Some rules =>
      match best_prefix_rule rules base with
      | None => base
      | Some bestrule => replace (fst (fst bestrule)) (snd (fst bestrule)) base
      end
  end.

(** [apply_best_rule(lemma, msd, allprules, allsrules)] *)
Definition apply_best_rule (lemma msd : str) (allprules allsrules : store)
    : str :=
  let base := [lmark] ++ lemma ++ [rmark] in
  if negb (store_mem msd allprules) && negb (store_mem msd allsrules)
  then lemma
  else
    let base := suffix_step msd allsrules base in
    let base := prefix_step msd allprules base in
    let base := replace [lmark] [] base in
    let base := replace [rmark] [] base in
    base.

(** The stores after one training triple, its rules inserted in the order
    given, each with frequency 1. *)
Definition single_store (msd : str) (rules : list rule) : store :=
  [(msd, map (fun r => (r, 1%Z)) rules)].

(* ================================================================= *)
(** ** Heuristic aligner *)

(** The variables [bu], [bl] and [minscore] of [halign].  [bu] and [bl]
    are unbound until a candidate has been kept. *)
Definition hstate : Type := (option (str * str) * nat)%type.

(** The body shared by the two loops: score the candidate and keep it when
    it is strictly better. *)
Definition halign_step (st : hstate) (upper lower : str) : hstate :=
  let score := hamming upper lower in
  if score <? snd st then (Some (upper, lower), score) else st.

(** The candidates of [for upad in range(0, tlen+1)]. *)
Definition upad_candidate (s t : str) (upad : nat) : str * str :=
  (repeat gap upad ++ s ++ repeat gap (length t - upad),
   repeat gap (length s) ++ t).

(** The candidates of [for lpad in range(0, slen+1)]. *)
Definition lpad_candidate (s t : str) (lpad : nat) : str * str :=
  (repeat gap (length t) ++ s,
   repeat gap (length s - lpad) ++ t ++ repeat gap lpad).

(** All candidates, in the order the two loops try them. *)
Definition halign_candidates (s t : str) : list (str * str) :=
  map (upad_candidate s t) (seq 0 (length t + 1))
  ++ map (lpad_candidate s t) (seq 0 (length s + 1)).

(** [i != '_' or o != '_'] *)
Definition keep_column (io : ascii * ascii) : bool :=
  negb (Ascii.eqb (fst io) gap) || negb (Ascii.eqb (snd io) gap).

(** [halign(s, t)]; [None] stands for the [UnboundLocalError] that reading
    an unbound [bu] raises. *)
Definition halign (s t : str) : option (str * str) :=
  let st :=
    fold_left (fun st c => halign_step st (fst c) (snd c))
      (halign_candidates s t) (None, length s + length t + 1) in
  match fst st with
  | None => None
  | Some (bu, bl) =>
      let zipped := combine bu bl in
      Some (map fst (filter keep_column zipped),
            map snd (filter keep_column zipped))
  end.

(* ================================================================= *)
(** ** Counting leading and trailing symbols *)

(** [s.lstrip(chars)] and [s.rstrip(chars)] *)
Fixpoint lstrip_chars (chars s : str) : str :=
  match s with
  | [] => []
  | x :: s' => if existsb (Ascii.eqb x) chars then lstrip_chars chars s' else s
  end.

Fixpoint rstrip_chars (chars s : str) : str :=
  match s with
  | [] => []
  | x :: s' =>
      match rstrip_chars chars s' with
      | [] => if existsb (Ascii.eqb x) chars then [] else [x]
      | y :: r => x :: y :: r
      end
  end.

Definition numleadingsyms (s symbol : str) : nat :=
  length s - length (lstrip_chars symbol s).

Definition numtrailingsyms (s symbol : str) : nat :=
  length s - length (rstrip_chars symbol s).

(* ================================================================= *)
(** ** Training and prediction loops of [main] *)

(** A line of a data file after [split('\t')]: lemma, MSD, form. *)
Definition line : Type := (str * str * str)%type.

Definition rule_eqb (a b : rule) : bool :=
  if rule_eq_dec a b then true else false.

(** [d[r]] and [d[r] = f] on the dictionary of one MSD: an existing key
    keeps its place, a new key goes last. *)
Fixpoint ruleset_get (r : rule) (rs : ruleset) : option Z :=
  match rs with
  | [] => None
  | (k, f) :: rs' => if rule_eqb r k then Some f else ruleset_get r rs'
  end.

Fixpoint ruleset_put (r : rule) (f : Z) (rs : ruleset) : ruleset :=
  match rs with
  | [] => [(r, f)]
  | (k, g) :: rs' =>
      if rule_eqb r k then (k, f) :: rs' else (k, g) :: ruleset_put r f rs'
  end.

(** [storage[msd] = v] *)
Fixpoint store_put (msd : str) (v : ruleset) (st : store) : store :=
  match st with
  | [] => [(msd, v)]
  | (k, w) :: st' =>
      if str_eqb msd k then (k, v) :: st' else (k, w) :: store_put msd v st'
  end.

(** [if msd not in storage and len(rules) > 0: storage[msd] = {}] *)
Definition init_msd (msd : str) (rules : list rule) (storage : store) : store :=
  if negb (store_mem msd storage) && (0 <? length rules)
  then store_put msd [] storage
  else storage.

(** [for r in rules: ...], counting each rule under [msd]; [None] stands
    for the [KeyError] of [storage[msd]]. *)
Fixpoint count_rules (msd : str) (rules : list rule) (storage : store)
    : option store :=
  match rules with
  | [] => Some storage
  | r :: rules' =>
      match store_get msd storage with
      | None => None
      | Some rs =>
          let rs' :=
            match ruleset_get r rs with
            | Some f => ruleset_put r (f + 1)%Z rs
            | None => ruleset_put r 1%Z rs
            end in
          count_rules msd rules' (store_put msd rs' storage)
      end
  end.

(** [lemma[::-1]] when the language was found prefixing. *)
Definition orient (reversed : bool) (s : str) : str :=
  if reversed then rev s else s.

(** The body of the loop that reads the training lines, [reversed] being
    the value of [prefbias > suffbias]. *)
Definition train_line (A : arith) (reversed : bool) (l : line)
    (stores : store * store) : option (store * store) :=
  let '(lemma, msd, form) := l in
  let lemma := orient reversed lemma in
  let form := orient reversed form in
  let '(prules, srules) := prefix_suffix_rules_get A lemma form in
  let allprules := init_msd msd prules (fst stores) in
  let allsrules := init_msd msd srules (snd stores) in
  match count_rules msd prules allprules with
  | None => None
  | Some allprules' =>
      match count_rules msd srules allsrules with
      | None => None
      | Some allsrules' => Some (allprules', allsrules')
      end
  end.

Fixpoint train_lines (A : arith) (reversed : bool) (lines : list line)
    (stores : store * store) : option (store * store) :=
  match lines with
  | [] => Some stores
  | l :: lines' =>
      match train_line A reversed l stores with
      | None => None
      | Some stores' => train_lines A reversed lines' stores'
      end
  end.

(** The body of the loop that votes on the bias: [(prefbias, suffbias)]. *)
Definition bias_line (l : line) (b : nat * nat) : option (nat * nat) :=
  let '(lemma, _, form) := l in
  match halign lemma form with
  | None => None
  | Some (a0, a1) =>
      if negb (contains $" " a0) && negb (contains $" " a1)
         && negb (contains $"-" a0) && negb (contains $"-" a1)
      then Some (fst b + (numleadingsyms a0 $"_" + numleadingsyms a1 $"_"),
                 snd b + (numtrailingsyms a0 $"_" + numtrailingsyms a1 $"_"))
      else Some b
  end.

Fixpoint bias (lines : list line) (b : nat * nat) : option (nat * nat) :=
  match lines with
  | [] => Some b
  | l :: lines' =>
      match bias_line l b with
      | None => None
      | Some b' => bias lines' b'
      end
  end.

(** Training on the lines of one language: the bias flag and the two
    stores.  [None] stands for the [UnboundLocalError] of [halign] and for
    the [KeyError] of [storage[msd]], the two errors the statements of the
    loops can raise.  The depth of the interpreter's call stack, which
    [lrec] exhausts on lines of several hundred characters, is not
    modelled. *)
Definition train (A : arith) (lines : list line)
    : option (bool * store * store) :=
  match bias lines (0, 0) with
  | None => None
  | Some (prefbias, suffbias) =>
      let reversed := suffbias <? prefbias in
      match train_lines A reversed lines ([], []) with
      | None => None
      | Some (allprules, allsrules) => Some (reversed, allprules, allsrules)
      end
  end.

(** [outform], as the evaluation loop computes it for one line. *)
Definition predict (reversed : bool) (lemma msd : str)
    (allprules allsrules : store) : str :=
  if reversed
  then rev (apply_best_rule (rev lemma) msd allprules allsrules)
  else apply_best_rule lemma msd allprules allsrules.

(* ================================================================= *)
(** ** Notions used in the statements *)

(** Deleting every gap-marker. *)
Definition strip_gaps (s : str) : str :=
  filter (fun c => negb (Ascii.eqb c gap)) s.

Definition gap_free (s : str) : Prop := ~ In gap s.

(** None of the reserved symbols ['_'], ['<'], ['>'] occurs. *)
Definition reserved_free (s : str) : Prop :=
  ~ In gap s /\ ~ In lmark s /\ ~ In rmark s.

(** [Align s t a b]: the columns of [(a, b)] spell [s] on top and [t]
    below, a gap-marker standing where a side consumes nothing. *)
Inductive Align : str -> str -> str -> str -> Prop :=
| Align_done : Align [] [] [] []
| Align_both : forall x y s t a b,
    Align s t a b -> Align (x :: s) (y :: t) (x :: a) (y :: b)
| Align_ins : forall y s t a b,
    Align s t a b -> Align s (y :: t) (gap :: a) (y :: b)
| Align_del : forall x s t a b,
    Align s t a b -> Align (x :: s) t (x :: a) (gap :: b).

(** The positions below both lengths at which two strings differ. *)
Definition mismatches (s t : str) : list nat :=
  filter (fun i => negb (Ascii.eqb (nth i s gap) (nth i t gap)))
         (seq 0 (Nat.min (length s) (length t))).

(** Replacement at the first occurrence only: find the first index, slice
    and reassemble. *)
Definition replace_first (old new s : str) : str :=
  match find old s with
  | Some i => firstn i s ++ new ++ skipn (i + length old) s
  | None => s
  end.

(** [min(a, b)] on rationals and [|len(s) - len(t)|]. *)
Definition Qc_min (a b : Qc) : Qc := if Qc_ltb b a then b else a.

Definition length_gap (s t : str) : nat :=
  (length s - length t) + (length t - length s).

(** Lexicographic order on the keys of the suffix step. *)
Definition lex_le (k1 k2 : nat * Z * nat) : Prop :=
  let '(a1, b1, c1) := k1 in
  let '(a2, b2, c2) := k2 in
  a1 < a2 \/ (a1 = a2 /\ ((b1 < b2)%Z \/ (b1 = b2 /\ c1 <= c2))).

(** The frequency recorded for a rule under an MSD, 0 when there is
    none. *)
Definition freq (msd : str) (r : rule) (st : store) : Z :=
  match store_get msd st with
  | None => 0%Z
  | Some rs => match ruleset_get r rs with Some f => f | None => 0%Z end
  end.

Definition indicator (b : bool) : Z := if b then 1%Z else 0%Z.

(** Whether a training line carries the MSD and yields the rule, among its
    suffix rules or among its prefix rules. *)
Definition line_yields (A : arith) (reversed suffix : bool) (msd : str)
    (r : rule) (l : line) : bool :=
  let '(lemma, m, form) := l in
  let rules :=
    prefix_suffix_rules_get A (orient reversed lemma) (orient reversed form) in
  str_eqb m msd
  && if in_dec rule_eq_dec r (if suffix then snd rules else fst rules)
     then true else false.

(** The suffixes [s[i:]] of a string, and the keys of a cache. *)
Definition suffixes (s : str) : list str :=
  map (fun i => skipn i s) (seq 0 (S (length s))).

Definition cache_keys (A : arith) (c : cache A) : list (str * str) :=
  map fst c.

(** Edit scripts: one operation per column of an alignment. *)
Inductive edit : Type :=
| Keep (x y : ascii)
| Insert (y : ascii)
| Delete (x : ascii).

(** The string an edit script consumes, the string it produces, and the
    two rows of the alignment it draws. *)
Fixpoint script_source (es : list edit) : str :=
  match es with
  | [] => []
  | Keep x _ :: es' => x :: script_source es'
  | Insert _ :: es' => script_source es'
  | Delete x :: es' => x :: script_source es'
  end.

Fixpoint script_target (es : list edit) : str :=
  match es with
  | [] => []
  | Keep _ y :: es' => y :: script_target es'
  | Insert y :: es' => y :: script_target es'
  | Delete _ :: es' => script_target es'
  end.

Fixpoint script_top (es : list edit) : str :=
  match es with
  | [] => []
  | Keep x _ :: es' => x :: script_top es'
  | Insert _ :: es' => gap :: script_top es'
  | Delete x :: es' => x :: script_top es'
  end.

Fixpoint script_bottom (es : list edit) : str :=
  match es with
  | [] => []
  | Keep _ y :: es' => y :: script_bottom es'
  | Insert y :: es' => y :: script_bottom es'
  | Delete _ :: es' => gap :: script_bottom es'
  end.

(** The cost of a script when an insertion and a deletion cost 1 each and
    a substitution costs [substcost]. *)
Fixpoint script_cost (substcost : Qc) (es : list edit) : Qc :=
  match es with
  | [] => Q2Qc 0
  | Keep x y :: es' =>
      ((if Ascii.eqb x y then Q2Qc 0 else substcost)
       + script_cost substcost es')%Qc
  | Insert _ :: es' => (Q2Qc 1 + script_cost substcost es')%Qc
  | Delete _ :: es' => (Q2Qc 1 + script_cost substcost es')%Qc
  end.

Section Fragment.

Variable A : arith.
Variables inscost delcost substcost : num A.

(** The cheaper of three cache entries, the first one on ties. *)
Definition pick3 (a b c : entry A) : entry A :=
  let m := if lt A (snd b) (snd a) then b else a in
  if lt A (snd c) (snd m) then c else m.

(** The alignment fragment and incremental cost of a pair of remaining
    suffixes, computed without reference to any prefix. *)
Fixpoint frag_rec (srem : str) : str -> entry A :=
  fix go (trem : str) {struct trem} : entry A :=
    match srem with
    | [] => (repeat gap (length trem), trem, of_len A (length trem))
    | x :: srem' =>
        match trem with
        | [] => (srem, repeat gap (length srem), of_len A (length srem))
        | y :: trem' =>
            let addcost := if Ascii.eqb x y then zero A else substcost in
            let e1 := frag_rec srem' trem' in
            let e2 := go trem' in
            let e3 := frag_rec srem' trem in
            pick3 (x :: fst (fst e1), y :: snd (fst e1), add A addcost (snd e1))
                  (gap :: fst (fst e2), y :: snd (fst e2), add A inscost (snd e2))
                  (x :: fst (fst e3), gap :: snd (fst e3), add A delcost (snd e3))
        end
    end.

Definition frag (srem trem : str) : entry A := frag_rec srem trem.

(** A fragment put behind a caller's prefixes and accumulated cost. *)
Definition prefixed (sp tp : str) (cost : num A) (e : entry A) : res A :=
  (sp ++ fst (fst e), tp ++ snd (fst e), [], [], add A cost (snd e)).

(** What every call of [lrec] returns: the caller's prefixes extended by
    an alignment of the remaining suffixes. *)
Definition extends (sp tp sr tr : str) (r : res A) : Prop :=
  exists a b, r0 r = sp ++ a /\ r1 r = tp ++ b /\ Align sr tr a b.

(** Every cache entry is an alignment of its key. *)
Definition cache_aligned (c : cache A) : Prop :=
  forall sr tr a b d, cache_get (sr, tr) c = Some (a, b, d) -> Align sr tr a b.

(** Every cache entry is the fragment of its key. *)
Definition cache_exact (c : cache A) : Prop :=
  forall sr tr e, cache_get (sr, tr) c = Some e -> e = frag sr tr.

End Fragment.

Arguments pick3 {A} a b c.
Arguments prefixed {A} sp tp cost e.
Arguments extends {A} sp tp sr tr r.
Arguments cache_aligned {A} c.

(* ================================================================= *)
(** * Properties *)

(** ** Strings *)

Lemma starts_with_app (p s : str) : starts_with p (p ++ s) = true.
Proof.
  induction p as [|a p IH]; simpl; [reflexivity|].
  now rewrite Ascii.eqb_refl, IH.
Qed.

Lemma starts_with_inv (p s : str) :
  starts_with p s = true -> exists v, s = p ++ v.
Proof.
  revert s; induction p as [|a p IH]; intros s H.
  - now exists s.
  - destruct s as [|b s]; simpl in H; [discriminate|].
    apply andb_true_iff in H as [Hab Hp].
    apply Ascii.eqb_eq in Hab; subst b.
    destruct (IH _ Hp) as [v ->]. now exists v.
Qed.

(** [contains] is the substring test. *)
Lemma contains_spec (p s : str) :
  contains p s = true <-> exists u v, s = u ++ p ++ v.
Proof.
  split.
  - induction s as [|c s IH]; simpl; intros H.
    + rewrite orb_false_r in H. apply starts_with_inv in H as [v ->].
      now exists [], v.
    + apply orb_true_iff in H as [H|H].
      * apply starts_with_inv in H as [v Hv]. now exists [], v.
      * destruct (IH H) as (u & v & ->). now exists (c :: u), v.
  - intros (u & v & ->). induction u as [|c u IH]; simpl.
    + destruct (p ++ v) eqn:E; simpl; rewrite <- E, starts_with_app; reflexivity.
    + rewrite IH. apply orb_true_r.
Qed.

Lemma find_contains (p s : str) :
  contains p s = true -> exists i, find p s = Some i.
Proof.
  induction s as [|c s IH]; simpl; intros H.
  - rewrite orb_false_r in H. rewrite H. now exists 0.
  - destruct (starts_with p (c :: s)); [now exists 0|].
    simpl in H. destruct (IH H) as [i ->]. now exists (S i).
Qed.

Lemma replace_scan_skip (old new : str) (k : nat) (s : str) :
  replace_scan old new k s = replace_scan old new 0 (skipn k s).
Proof.
  revert s; induction k as [|k IH]; intros s; [reflexivity|].
  destruct s as [|c s]; [reflexivity|]. simpl. apply IH.
Qed.

Lemma replace_scan_find (old new s : str) (i : nat) :
  old <> [] -> find old s = Some i ->
  replace_scan old new 0 s =
  firstn i s ++ new ++ replace_scan old new 0 (skipn (i + length old) s).
Proof.
  intros Hold. revert i; induction s as [|c s IH]; intros i Hf.
  - simpl in Hf. destruct old; [congruence|discriminate].
  - cbn [find] in Hf. cbn [replace_scan].
    destruct (starts_with old (c :: s)) eqn:E.
    + injection Hf as <-. cbn [firstn app Nat.add].
      rewrite replace_scan_skip. do 2 f_equal.
      destruct old as [|o old]; [congruence|].
      cbn [length Nat.sub skipn]. now rewrite Nat.sub_0_r.
    + destruct (find old s) as [j|] eqn:Ej; [|discriminate].
      injection Hf as <-. cbn [firstn Nat.add skipn].
      rewrite (IH j eq_refl). reflexivity.
Qed.

Lemma replace_find (old new s : str) (i : nat) :
  old <> [] -> find old s = Some i ->
  replace old new s =
  firstn i s ++ new ++ replace old new (skipn (i + length old) s).
Proof.
  intros Hold Hf. destruct old as [|o old]; [congruence|].
  unfold replace. now apply replace_scan_find.
Qed.

Lemma replace_absent (old new s : str) :
  contains old s = false -> replace old new s = s.
Proof.
  destruct old as [|o old].
  - destruct s; discriminate.
  - unfold replace. induction s as [|c s IH]; intros H; [reflexivity|].
    cbn [contains] in H. apply orb_false_iff in H as [H1 H2].
    cbn [replace_scan]. rewrite H1. f_equal. now apply IH.
Qed.

(** Replacing a one-character pattern by nothing deletes that character. *)
Lemma replace_char_nil (c : ascii) (s : str) :
  replace [c] [] s = filter (fun x => negb (Ascii.eqb x c)) s.
Proof.
  unfold replace. induction s as [|x s IH]; [reflexivity|].
  cbn [replace_scan starts_with filter length Nat.sub app].
  rewrite andb_true_r, (Ascii.eqb_sym c x).
  destruct (Ascii.eqb x c); cbn [negb]; now rewrite IH.
Qed.

(** ** Hamming scorer *)

Lemma filter_seq_shift (f : nat -> bool) (a n : nat) :
  length (filter f (seq (S a) n)) =
  length (filter (fun i => f (S i)) (seq a n)).
Proof.
  revert a; induction n as [|n IH]; intros a; [reflexivity|].
  cbn [seq filter]. destruct (f (S a)); cbn [length]; now rewrite IH.
Qed.

Lemma hamming_cons (x y : ascii) (s t : str) :
  hamming (x :: s) (y :: t) =
  (if Ascii.eqb x y then 0 else 1) + hamming s t.
Proof.
  unfold hamming. cbn [combine filter fst snd].
  destruct (Ascii.eqb x y); reflexivity.
Qed.

Lemma mismatches_cons (x y : ascii) (s t : str) :
  length (mismatches (x :: s) (y :: t)) =
  (if Ascii.eqb x y then 0 else 1) + length (mismatches s t).
Proof.
  unfold mismatches. cbn [length Nat.min seq filter nth].
  destruct (Ascii.eqb x y); cbn [negb length Nat.add];
    now rewrite filter_seq_shift.
Qed.

(** C10. [hamming] is defined on strings of any two lengths: its value is
    the number of positions below both lengths at which the strings
    differ; the characters of the longer string past the end of the
    shorter one are not looked at. *)
Theorem hamming_counts_common_positions (s t : str) :
  hamming s t = length (mismatches s t)
  /\ hamming s t =
     hamming (firstn (Nat.min (length s) (length t)) s)
             (firstn (Nat.min (length s) (length t)) t).
Proof.
  split.
  - revert t; induction s as [|x s IH]; intros t; [reflexivity|].
    destruct t as [|y t]; [reflexivity|].
    now rewrite hamming_cons, mismatches_cons, IH.
  - revert t; induction s as [|x s IH]; intros t; [reflexivity|].
    destruct t as [|y t]; [reflexivity|].
    cbn [length Nat.min firstn]. now rewrite !hamming_cons, <- IH.
Qed.

(** ** Rule applier *)

Lemma str_eqb_eq (a b : str) : str_eqb a b = true <-> a = b.
Proof. unfold str_eqb. destruct (str_eq_dec a b); split; congruence. Qed.

Lemma store_get_absent (msd : str) (st : store) :
  ~ In msd (map fst st) -> store_get msd st = None.
Proof.
  induction st as [|[k v] st IH]; intros H; [reflexivity|].
  cbn [store_get]. destruct (str_eqb msd k) eqn:E.
  - apply str_eqb_eq in E. subst k. exfalso. apply H. now left.
  - apply IH. intros Hin. apply H. now right.
Qed.

(** C7. When the MSD is a key of neither store, [apply_best_rule] returns
    the lemma unchanged. *)
Theorem apply_best_rule_unseen_msd
    (lemma msd : str) (allprules allsrules : store) :
  ~ In msd (map fst allprules) ->
  ~ In msd (map fst allsrules) ->
  apply_best_rule lemma msd allprules allsrules = lemma.
Proof.
  intros Hp Hs. unfold apply_best_rule, store_mem.
  now rewrite (store_get_absent _ _ Hp), (store_get_absent _ _ Hs).
Qed.

Lemma apply_best_rule_unseen_msd_witness :
  apply_best_rule $"cat" $"UNSEEN"
    [($"V;PST", [(($"<", $"<"), 1%Z)])]
    [($"V;PST", [(($">", $"ed>"), 1%Z)])] = $"cat".
Proof.
  apply apply_best_rule_unseen_msd; cbn; intros [H|[]]; discriminate H.
Defined.

Section MaxFrom.

Variable T : Type.
Variable gt : T -> T -> bool.
Variable le : T -> T -> Prop.
Hypothesis le_refl : forall x, le x x.
Hypothesis le_trans : forall x y z, le x y -> le y z -> le x z.
Hypothesis gt_true : forall x y, gt x y = true -> le y x.
Hypothesis gt_false : forall x y, gt x y = false -> le x y.

Lemma max_from_spec (l : list T) (best : T) :
  In (max_from gt best l) (best :: l)
  /\ forall x, In x (best :: l) -> le x (max_from gt best l).
Proof.
  revert best; induction l as [|y l IH]; intros best; cbn [max_from].
  - split; [now left|]. intros x [<-|[]]. apply le_refl.
  - destruct (IH (if gt y best then y else best)) as [Hin Hmax]. split.
    + destruct Hin as [Hin|Hin]; [|now right; right].
      rewrite <- Hin. destruct (gt y best); [right|]; now left.
    + intros x [Hx|[Hx|Hx]].
      * subst x. destruct (gt y best) eqn:E.
        -- apply le_trans with y; [now apply gt_true|]. apply Hmax. now left.
        -- apply Hmax. now left.
      * subst x. destruct (gt y best) eqn:E.
        -- apply Hmax. now left.
        -- apply le_trans with best; [now apply gt_false|]. apply Hmax. now left.
      * apply Hmax. now right.
Qed.

End MaxFrom.

Lemma key_gt_lex (k1 k2 : nat * Z * nat) :
  (key_gt k1 k2 = true -> lex_le k2 k1)
  /\ (key_gt k1 k2 = false -> lex_le k1 k2).
Proof.
  destruct k1 as [[a1 b1] c1], k2 as [[a2 b2] c2]. unfold key_gt, lex_le.
  destruct (Nat.ltb_spec a2 a1), (Nat.eqb_spec a1 a2), (Z.ltb_spec b2 b1),
    (Z.eqb_spec b1 b2), (Nat.ltb_spec c2 c1);
    cbn; split; intros Hk; try discriminate Hk; lia.
Qed.

Lemma lex_le_refl (k : nat * Z * nat) : lex_le k k.
Proof. destruct k as [[a b] c]. unfold lex_le. lia. Qed.

Lemma lex_le_trans (k1 k2 k3 : nat * Z * nat) :
  lex_le k1 k2 -> lex_le k2 k3 -> lex_le k1 k3.
Proof.
  destruct k1 as [[a1 b1] c1], k2 as [[a2 b2] c2], k3 as [[a3 b3] c3].
  unfold lex_le. lia.
Qed.

Lemma applicable_spec (rules : ruleset) (base : str) (i o : str) (f : Z) :
  In (i, o, f) (applicable rules base) <->
  In ((i, o), f) rules /\ contains i base = true.
Proof.
  unfold applicable. rewrite in_map_iff. split.
  - intros ([[i' o'] f'] & E & Hin). cbn in E. injection E as -> -> ->.
    now apply filter_In in Hin.
  - intros [Hin Hc]. exists ((i, o), f). split; [reflexivity|].
    apply filter_In. now split.
Qed.

Lemma best_suffix_rule_spec (rules : ruleset) (base : str) :
  applicable rules base <> [] ->
  exists r, best_suffix_rule rules base = Some r
    /\ In r (applicable rules base)
    /\ forall r', In r' (applicable rules base) ->
         lex_le (suffix_key r') (suffix_key r).
Proof.
  unfold best_suffix_rule. destruct (applicable rules base) as [|x l]; [congruence|].
  intros _. cbn [py_max]. eexists; split; [reflexivity|].
  apply (max_from_spec _ suffix_gt
           (fun a b => lex_le (suffix_key a) (suffix_key b))).
  - intros a. apply lex_le_refl.
  - intros a b c. apply lex_le_trans.
  - intros a b. apply key_gt_lex.
  - intros a b. apply key_gt_lex.
Qed.

(** C8. In the suffix step, as soon as some suffix rule registered for the
    MSD has an input pattern that is a substring of [base], a rule is
    selected and applied; it is one of those rules, and its key
    [(length of input pattern, frequency, length of output pattern)] is
    lexicographically greatest among them.  In particular no applicable rule
    has a longer input pattern than the selected one. *)
Theorem suffix_selection_priority
    (msd : str) (allsrules : store) (rules : ruleset) (base : str)
    (i0 o0 : str) (f0 : Z) :
  store_get msd allsrules = Some rules ->
  In ((i0, o0), f0) rules ->
  (exists u v, base = u ++ i0 ++ v) ->
  exists i o f,
    best_suffix_rule rules base = Some (i, o, f)
    /\ suffix_step msd allsrules base = replace i o base
    /\ In ((i, o), f) rules
    /\ (exists u v, base = u ++ i ++ v)
    /\ (forall i' o' f',
          In ((i', o'), f') rules ->
          (exists u v, base = u ++ i' ++ v) ->
          lex_le (length i', f', length o') (length i, f, length o)
          /\ length i' <= length i).
Proof.
  intros Hget Hin Hsub.
  assert (Hne : applicable rules base <> []).
  { intros E. apply contains_spec in Hsub.
    assert (H : In (i0, o0, f0) (applicable rules base))
      by now apply applicable_spec.
    rewrite E in H. destruct H. }
  destruct (best_suffix_rule_spec _ _ Hne) as ([[i o] f] & Hbest & Hmem & Hmax).
  exists i, o, f. apply applicable_spec in Hmem as [Hr Hc].
  split; [exact Hbest|]. split.
  { unfold suffix_step. now rewrite Hget, Hbest. }
  split; [exact Hr|]. split; [now apply contains_spec|].
  intros i' o' f' Hin' Hsub'.
  assert (Hle : lex_le (length i', f', length o') (length i, f, length o)).
  { apply (Hmax (i', o', f')). apply applicable_spec.
    split; [exact Hin'|now apply contains_spec]. }
  split; [exact Hle|]. unfold lex_le in Hle. lia.
Qed.

Lemma suffix_selection_priority_witness :
  exists i o f,
    best_suffix_rule
      [(($">", $"s>"), 5%Z); (($"k>", $"ked>"), 1%Z); (($"z>", $"zes>"), 9%Z)]
      $"<walk>" = Some (i, o, f)
    /\ i = $"k>".
Proof.
  destruct (suffix_selection_priority $"V"
              [($"V", [(($">", $"s>"), 5%Z); (($"k>", $"ked>"), 1%Z);
                        (($"z>", $"zes>"), 9%Z)])]
              [(($">", $"s>"), 5%Z); (($"k>", $"ked>"), 1%Z);
               (($"z>", $"zes>"), 9%Z)]
              $"<walk>" $">" $"s>" 5%Z)
    as (i & o & f & Hbest & _).
  - reflexivity.
  - now left.
  - exists $"<walk", []. reflexivity.
  - exists i, o, f. split; [exact Hbest|].
    vm_compute in Hbest. now injection Hbest as <- _ _.
Defined.

(** C1, as stated, fails: the selected rule rewrites every occurrence of
    its input pattern.  With the suffix rule [("a", "b")], the base
    ["<aa>"] becomes ["<bb>"], where replacing the first occurrence alone
    gives ["<ba>"]; with the prefix rule [("", "a")], which training on
    ("b", "ab") produces, the base ["<b>"] becomes ["a<aba>a"]. *)
Lemma first_occurrence_only_counterexample :
  best_suffix_rule [(($"a", $"b"), 1%Z)] $"<aa>" = Some ($"a", $"b", 1%Z)
  /\ suffix_step $"V" [($"V", [(($"a", $"b"), 1%Z)])] $"<aa>" = $"<bb>"
  /\ replace_first $"a" $"b" $"<aa>" = $"<ba>"
  /\ apply_best_rule $"aa" $"V" [] [($"V", [(($"a", $"b"), 1%Z)])] = $"bb"
  /\ best_prefix_rule [(($"", $"a"), 1%Z)] $"<b>" = Some ($"", $"a", 1%Z)
  /\ prefix_step $"V" [($"V", [(($"", $"a"), 1%Z)])] $"<b>" = $"a<aba>a"
  /\ replace_first $"" $"a" $"<b>" = $"a<b>".
Proof. repeat split. Qed.

(** C1, amended.  Once a best suffix rule (likewise a best prefix rule)
    with a non-empty input pattern is selected, the base is rewritten at
    the first occurrence of the input pattern and, in the same way, in all
    the text that follows that occurrence: every later non-overlapping
    occurrence is replaced too, and only a remainder free of the pattern is
    left unchanged. *)
Theorem selected_rule_rewrites_every_occurrence
    (msd : str) (st : store) (rules : ruleset) (base pat out : str)
    (f : Z) (i : nat) :
  store_get msd st = Some rules ->
  pat <> [] ->
  find pat base = Some i ->
  let rest := skipn (i + length pat) base in
  (best_suffix_rule rules base = Some (pat, out, f) ->
   suffix_step msd st base = firstn i base ++ out ++ replace pat out rest)
  /\ (best_prefix_rule rules base = Some (pat, out, f) ->
      prefix_step msd st base = firstn i base ++ out ++ replace pat out rest)
  /\ (contains pat rest = false -> replace pat out rest = rest).
Proof.
  intros Hget Hpat Hfind rest. split; [|split].
  - intros Hbest. unfold suffix_step. rewrite Hget, Hbest. cbn [fst snd].
    now apply replace_find.
  - intros Hbest. unfold prefix_step. rewrite Hget, Hbest. cbn [fst snd].
    now apply replace_find.
  - apply replace_absent.
Qed.

Lemma selected_rule_rewrites_every_occurrence_witness :
  suffix_step $"V" [($"V", [(($"a", $"b"), 1%Z)])] $"<aa>"
  = $"<" ++ $"b" ++ replace $"a" $"b" $"a>".
Proof.
  apply (selected_rule_rewrites_every_occurrence
           $"V" [($"V", [(($"a", $"b"), 1%Z)])] [(($"a", $"b"), 1%Z)]
           $"<aa>" $"a" $"b" 1%Z 1).
  - reflexivity.
  - discriminate.
  - reflexivity.
  - reflexivity.
Defined.

(** ** Edit-distance aligner: shape of the result *)

Lemma Align_nil_l (t : str) : Align [] t (repeat gap (length t)) t.
Proof. induction t as [|y t IH]; cbn; now constructor. Qed.

Lemma Align_nil_r (s : str) : Align s [] s (repeat gap (length s)).
Proof. induction s as [|x s IH]; cbn; now constructor. Qed.

Lemma Align_length (s t a b : str) : Align s t a b -> length a = length b.
Proof. induction 1; cbn; congruence. Qed.

Lemma Align_strip_l (s t a b : str) :
  Align s t a b -> gap_free s -> strip_gaps a = s.
Proof.
  unfold gap_free, strip_gaps. induction 1 as [|x y s t a b H IH|y s t a b H IH|x s t a b H IH]; intros Hs.
  - reflexivity.
  - cbn [filter]. destruct (Ascii.eqb_spec x gap) as [->|_].
    + exfalso. apply Hs. now left.
    + cbn [negb]. f_equal. apply IH. intros Hin. apply Hs. now right.
  - cbn [filter]. rewrite Ascii.eqb_refl. cbn [negb]. now apply IH.
  - cbn [filter]. destruct (Ascii.eqb_spec x gap) as [->|_].
    + exfalso. apply Hs. now left.
    + cbn [negb]. f_equal. apply IH. intros Hin. apply Hs. now right.
Qed.

Lemma Align_swap (s t a b : str) : Align s t a b -> Align t s b a.
Proof. induction 1; now constructor. Qed.

Lemma Align_strip_r (s t a b : str) :
  Align s t a b -> gap_free t -> strip_gaps b = t.
Proof. intros H. apply Align_strip_l with s a. now apply Align_swap. Qed.

Section Shape.

Variable A : arith.
Variables inscost delcost substcost : num A.

Lemma min3_cases (a b c : res A) :
  min3 a b c = a \/ min3 a b c = b \/ min3 a b c = c.
Proof.
  unfold min3. destruct (lt A (r4 b) (r4 a)).
  - destruct (lt A (r4 c) (r4 b)); auto.
  - destruct (lt A (r4 c) (r4 a)); auto.
Qed.

Lemma key_eqb_eq (k1 k2 : str * str) : key_eqb k1 k2 = true -> k1 = k2.
Proof.
  destruct k1, k2. unfold key_eqb. cbn [fst snd]. intros H.
  apply andb_true_iff in H as [H1 H2].
  apply str_eqb_eq in H1, H2. congruence.
Qed.

Lemma cache_aligned_set (sr tr a b : str) (d : num A) (c : cache A) :
  cache_aligned c -> Align sr tr a b ->
  cache_aligned (cache_set (sr, tr) (a, b, d) c).
Proof.
  intros Hc Hal sr' tr' a' b' d'. unfold cache_set. cbn [cache_get].
  destruct (key_eqb (sr', tr') (sr, tr)) eqn:E.
  - apply key_eqb_eq in E. injection E as -> ->.
    intros H. injection H as <- <- _. exact Hal.
  - apply Hc.
Qed.

Lemma extends_step (sp tp sr tr : str) (x y : ascii) (sr' tr' : str)
    (r : res A) :
  extends (sp ++ [x]) (tp ++ [y]) sr' tr' r ->
  (forall a b, Align sr' tr' a b -> Align sr tr (x :: a) (y :: b)) ->
  extends sp tp sr tr r.
Proof.
  intros (a' & b' & H0 & H1 & Hal) Hstep.
  exists (x :: a'), (y :: b'). rewrite H0, H1, <- !app_assoc.
  repeat split. now apply Hstep.
Qed.

(** The decorator keeps both invariants, provided the decorated body
    does on a cache miss. *)
Lemma wrap_shape (func : cache A -> res A * cache A)
    (sp tp sr tr : str) (cost : num A) (c : cache A) :
  cache_aligned c ->
  (extends sp tp sr tr (fst (func c)) /\ cache_aligned (snd (func c))) ->
  extends sp tp sr tr (fst (wrap func sp tp sr tr cost c))
  /\ cache_aligned (snd (wrap func sp tp sr tr cost c)).
Proof.
  intros Hc Hf. unfold wrap.
  destruct (cache_get (sr, tr) c) as [[[a b] d]|] eqn:E.
  - cbn [fst snd]. split; [|exact Hc].
    exists a, b. repeat split. now apply Hc with d.
  - destruct (func c) as [r c'] eqn:Ef. cbn [fst snd] in *.
    destruct Hf as [(a & b & H0 & H1 & Hal) Hc'].
    rewrite H0, H1, !skipn_app, !skipn_all, !Nat.sub_diag. cbn [skipn app].
    split.
    + exists a, b. now repeat split.
    + now apply cache_aligned_set.
Qed.

Lemma lrec_rec_shape (sr tr sp tp : str) (cost : num A) (c : cache A) :
  cache_aligned c ->
  extends sp tp sr tr
    (fst (lrec_rec A inscost delcost substcost sr tr sp tp cost c))
  /\ cache_aligned
       (snd (lrec_rec A inscost delcost substcost sr tr sp tp cost c)).
Proof.
  revert tr sp tp cost c.
  induction sr as [|x sr IHs]; intros tr;
    induction tr as [|y tr IHt]; intros sp tp cost c Hc;
    cbn [lrec_rec]; apply wrap_shape; try exact Hc; cbn [fst snd].
  - split; [|exact Hc]. exists [], []. repeat split. constructor.
  - split; [|exact Hc].
    exists (repeat gap (length (y :: tr))), (y :: tr).
    repeat split. apply Align_nil_l.
  - split; [|exact Hc].
    exists (x :: sr), (repeat gap (length (x :: sr))).
    repeat split. apply Align_nil_r.
  - set (addcost := if Ascii.eqb x y then zero A else substcost).
    destruct (IHs tr (sp ++ [x]) (tp ++ [y]) (add A cost addcost) c Hc)
      as [E1 C1].
    destruct (lrec_rec A inscost delcost substcost sr tr (sp ++ [x])
                (tp ++ [y]) (add A cost addcost) c) as [a1 c1].
    cbn [fst snd] in E1, C1.
    destruct (IHt (sp ++ [gap]) (tp ++ [y]) (add A cost inscost) c1 C1)
      as [E2 C2].
    cbn [lrec_rec] in E2, C2.
    match goal with
    | |- context [let '(a2, c2) := ?call in _] =>
        destruct call as [a2 c2]
    end.
    cbn [fst snd] in E2, C2.
    destruct (IHs (y :: tr) (sp ++ [x]) (tp ++ [gap]) (add A cost delcost)
                c2 C2) as [E3 C3].
    destruct (lrec_rec A inscost delcost substcost sr (y :: tr) (sp ++ [x])
                (tp ++ [gap]) (add A cost delcost) c2) as [a3 c3].
    cbn [fst snd] in *. split; [|exact C3].
    destruct (min3_cases a1 a2 a3) as [ -> | [ -> | -> ] ].
    + apply extends_step with x y sr tr; [exact E1|].
      intros; now constructor.
    + apply extends_step with gap y (x :: sr) tr; [exact E2|].
      intros; now constructor.
    + apply extends_step with x gap sr (y :: tr); [exact E3|].
      intros; now constructor.
Qed.

Lemma levenshtein_Align (s t : str) :
  Align s t
    (fst (fst (levenshtein A inscost delcost substcost s t)))
    (snd (fst (levenshtein A inscost delcost substcost s t))).
Proof.
  unfold levenshtein, lrec. cbn [fst snd].
  destruct (lrec_rec_shape s t [] [] (zero A) []) as [(a & b & H0 & H1 & Hal) _].
  - intros sr tr a b d H. discriminate H.
  - now rewrite H0, H1.
Qed.

End Shape.

(** C5. For strings [s] and [t] without gap-marker, the two aligned
    strings that [levenshtein(s, t)] returns have the same length;
    deleting the gap-markers of the first gives [s], and of the second
    gives [t].  This holds whatever the arithmetic of the costs is. *)
Theorem levenshtein_alignment_invariant
    (A : arith) (inscost delcost substcost : num A) (s t : str) :
  gap_free s -> gap_free t ->
  let al := levenshtein A inscost delcost substcost s t in
  length (fst (fst al)) = length (snd (fst al))
  /\ strip_gaps (fst (fst al)) = s
  /\ strip_gaps (snd (fst al)) = t.
Proof.
  intros Hs Ht al.
  pose proof (levenshtein_Align A inscost delcost substcost s t) as Hal.
  fold al in Hal. repeat split.
  - now apply Align_length with s t.
  - now apply Align_strip_l with t (snd (fst al)).
  - now apply Align_strip_r with s (fst (fst al)).
Qed.

Lemma levenshtein_alignment_invariant_witness :
  let al := levenshtein float_arith (lit_1_0 float_arith)
              (lit_1_0 float_arith) (lit_1_0 float_arith) $"walk" $"walked" in
  length (fst (fst al)) = length (snd (fst al))
  /\ strip_gaps (fst (fst al)) = $"walk"
  /\ strip_gaps (snd (fst al)) = $"walked".
Proof.
  apply levenshtein_alignment_invariant;
    unfold gap_free; cbn; intros H;
    repeat (destruct H as [H|H]; [discriminate H|]); exact H.
Defined.

(** ** Edit-distance aligner: memoization *)

Section Memo.

Variable A : arith.
Variables inscost delcost substcost : num A.
Hypothesis exact : exact_arith A.

Let frg := frag_rec A inscost delcost substcost.

Lemma frag_rec_cons (x y : ascii) (sr tr : str) :
  frg (x :: sr) (y :: tr) =
  let addcost := if Ascii.eqb x y then zero A else substcost in
  let e1 := frg sr tr in
  let e2 := frg (x :: sr) tr in
  let e3 := frg sr (y :: tr) in
  pick3 (x :: fst (fst e1), y :: snd (fst e1), add A addcost (snd e1))
        (gap :: fst (fst e2), y :: snd (fst e2), add A inscost (snd e2))
        (x :: fst (fst e3), gap :: snd (fst e3), add A delcost (snd e3)).
Proof. reflexivity. Qed.

Lemma lrec_plain_rec_cons (x y : ascii) (sr tr sp tp : str) (cost : num A) :
  lrec_plain_rec A inscost delcost substcost (x :: sr) (y :: tr) sp tp cost =
  let addcost := if Ascii.eqb x y then zero A else substcost in
  min3 (lrec_plain_rec A inscost delcost substcost sr tr
          (sp ++ [x]) (tp ++ [y]) (add A cost addcost))
       (lrec_plain_rec A inscost delcost substcost (x :: sr) tr
          (sp ++ [gap]) (tp ++ [y]) (add A cost inscost))
       (lrec_plain_rec A inscost delcost substcost sr (y :: tr)
          (sp ++ [x]) (tp ++ [gap]) (add A cost delcost)).
Proof. reflexivity. Qed.

Lemma lrec_rec_cons (x y : ascii) (sr tr sp tp : str) (cost : num A)
    (c : cache A) :
  lrec_rec A inscost delcost substcost (x :: sr) (y :: tr) sp tp cost c =
  wrap
    (fun c0 =>
       let addcost := if Ascii.eqb x y then zero A else substcost in
       let '(a1, c1) :=
         lrec_rec A inscost delcost substcost sr tr
           (sp ++ [x]) (tp ++ [y]) (add A cost addcost) c0 in
       let '(a2, c2) :=
         lrec_rec A inscost delcost substcost (x :: sr) tr
           (sp ++ [gap]) (tp ++ [y]) (add A cost inscost) c1 in
       let '(a3, c3) :=
         lrec_rec A inscost delcost substcost sr (y :: tr)
           (sp ++ [x]) (tp ++ [gap]) (add A cost delcost) c2 in
       (min3 a1 a2 a3, c3))
    sp tp (x :: sr) (y :: tr) cost c.
Proof. reflexivity. Qed.

(** Choosing among prefixed fragments is choosing among the fragments:
    a common accumulated cost does not change any comparison. *)
Lemma min3_prefixed (sp tp : str) (cost : num A) (e1 e2 e3 : entry A) :
  min3 (prefixed sp tp cost e1) (prefixed sp tp cost e2)
       (prefixed sp tp cost e3)
  = prefixed sp tp cost (pick3 e1 e2 e3).
Proof.
  unfold min3, pick3, prefixed. cbn [r4].
  rewrite (lt_add_law A exact).
  destruct (lt A (snd e2) (snd e1)); cbn [r4];
    rewrite (lt_add_law A exact);
    destruct (lt A (snd e3) _); reflexivity.
Qed.

Lemma prefixed_step (sp tp : str) (x y : ascii) (cost d : num A)
    (e : entry A) :
  prefixed (sp ++ [x]) (tp ++ [y]) (add A cost d) e
  = prefixed sp tp cost
      (x :: fst (fst e), y :: snd (fst e), add A d (snd e)).
Proof.
  unfold prefixed. cbn [fst snd].
  now rewrite <- !app_assoc, (add_assoc_law A exact).
Qed.

(** The recursion without memoization returns, behind the caller's
    prefixes and cost, the fragment of the remaining suffixes. *)
Lemma lrec_plain_rec_frag (sr tr sp tp : str) (cost : num A) :
  lrec_plain_rec A inscost delcost substcost sr tr sp tp cost
  = prefixed sp tp cost (frg sr tr).
Proof.
  revert tr sp tp cost.
  induction sr as [|x sr IHs]; intros tr;
    induction tr as [|y tr IHt]; intros sp tp cost;
    try reflexivity.
  rewrite lrec_plain_rec_cons, frag_rec_cons. cbv zeta.
  rewrite IHs, IHt, IHs, !prefixed_step. apply min3_prefixed.
Qed.

Lemma cache_exact_set (sr tr : str) (c : cache A) :
  cache_exact A inscost delcost substcost c ->
  cache_exact A inscost delcost substcost
    (cache_set (sr, tr) (frg sr tr) c).
Proof.
  intros Hc sr' tr' e. unfold cache_set. cbn [cache_get].
  destruct (key_eqb (sr', tr') (sr, tr)) eqn:E.
  - apply key_eqb_eq in E. injection E as -> ->.
    intros H. now injection H as <-.
  - apply Hc.
Qed.

Lemma wrap_exact (func : cache A -> res A * cache A)
    (sp tp sr tr : str) (cost : num A) (c : cache A) :
  cache_exact A inscost delcost substcost c ->
  (fst (func c) = prefixed sp tp cost (frg sr tr)
   /\ cache_exact A inscost delcost substcost (snd (func c))) ->
  fst (wrap func sp tp sr tr cost c) = prefixed sp tp cost (frg sr tr)
  /\ cache_exact A inscost delcost substcost
       (snd (wrap func sp tp sr tr cost c)).
Proof.
  intros Hc Hf. unfold wrap.
  destruct (cache_get (sr, tr) c) as [e|] eqn:E.
  - apply Hc in E. subst e. unfold frag. fold frg.
    destruct (frg sr tr) as [[a b] d]. now split.
  - destruct (func c) as [r c'] eqn:Ef. cbn [fst snd] in Hf.
    destruct Hf as [-> Hc'].
    pose proof (cache_exact_set sr tr c' Hc') as Hset.
    destruct (frg sr tr) as [[a b] d]. unfold prefixed.
    cbn [r0 r1 r4 fst snd].
    rewrite !skipn_app, !skipn_all, !Nat.sub_diag, (add_sub_law A exact).
    cbn [skipn app]. split; [reflexivity|exact Hset].
Qed.

Lemma lrec_rec_exact (sr tr sp tp : str) (cost : num A) (c : cache A) :
  cache_exact A inscost delcost substcost c ->
  fst (lrec_rec A inscost delcost substcost sr tr sp tp cost c)
  = prefixed sp tp cost (frg sr tr)
  /\ cache_exact A inscost delcost substcost
       (snd (lrec_rec A inscost delcost substcost sr tr sp tp cost c)).
Proof.
  revert tr sp tp cost c.
  induction sr as [|x sr IHs]; intros tr;
    induction tr as [|y tr IHt]; intros sp tp cost c Hc.
  1-3: cbn [lrec_rec]; apply wrap_exact; [exact Hc|]; now split.
  rewrite lrec_rec_cons. apply wrap_exact; [exact Hc|]. cbv zeta.
  set (addcost := if Ascii.eqb x y then zero A else substcost).
  destruct (IHs tr (sp ++ [x]) (tp ++ [y]) (add A cost addcost) c Hc)
    as [E1 C1].
  destruct (lrec_rec A inscost delcost substcost sr tr (sp ++ [x])
              (tp ++ [y]) (add A cost addcost) c) as [a1 c1].
  cbn [fst snd] in E1, C1.
  destruct (IHt (sp ++ [gap]) (tp ++ [y]) (add A cost inscost) c1 C1)
    as [E2 C2].
  destruct (lrec_rec A inscost delcost substcost (x :: sr) tr (sp ++ [gap])
              (tp ++ [y]) (add A cost inscost) c1) as [a2 c2].
  cbn [fst snd] in E2, C2.
  destruct (IHs (y :: tr) (sp ++ [x]) (tp ++ [gap]) (add A cost delcost)
              c2 C2) as [E3 C3].
  destruct (lrec_rec A inscost delcost substcost sr (y :: tr) (sp ++ [x])
              (tp ++ [gap]) (add A cost delcost) c2) as [a3 c3].
  cbn [fst snd] in *. split; [|exact C3].
  rewrite E1, E2, E3, !prefixed_step, frag_rec_cons. apply min3_prefixed.
Qed.

(** With exact arithmetic the memoized aligner and the plain recursion
    return the same triple. *)
Lemma levenshtein_memo_plain (s t : str) :
  levenshtein A inscost delcost substcost s t
  = levenshtein_plain A inscost delcost substcost s t.
Proof.
  unfold levenshtein, levenshtein_plain, lrec, lrec_plain.
  destruct (lrec_rec_exact s t [] [] (zero A) []) as [-> _].
  - intros sr tr e H. discriminate H.
  - now rewrite lrec_plain_rec_frag.
Qed.

Lemma levenshtein_frag (s t : str) :
  levenshtein A inscost delcost substcost s t
  = (fst (fst (frg s t)), snd (fst (frg s t)), add A (zero A) (snd (frg s t))).
Proof.
  rewrite levenshtein_memo_plain.
  unfold levenshtein_plain, lrec_plain. now rewrite lrec_plain_rec_frag.
Qed.

End Memo.

(** ** Exact rational costs *)

Lemma Qc_ltb_lt (a b : Qc) : Qc_ltb a b = true <-> (a < b)%Qc.
Proof.
  unfold Qc_ltb. rewrite Qclt_alt.
  destruct (a ?= b)%Qc; split; intros H; congruence.
Qed.

Lemma Qc_ltb_ge (a b : Qc) : Qc_ltb a b = false <-> (b <= a)%Qc.
Proof.
  split; intros H.
  - apply Qcnot_lt_le. intros Hlt. apply Qc_ltb_lt in Hlt. congruence.
  - destruct (Qc_ltb a b) eqn:E; [|reflexivity].
    apply Qc_ltb_lt in E. now apply Qcle_not_lt in H.
Qed.

Lemma Qcplus_lt_l (a b c : Qc) : (b < c)%Qc <-> (a + b < a + c)%Qc.
Proof.
  rewrite (Qclt_minus_iff b c), (Qclt_minus_iff (a + b) (a + c))%Qc.
  now replace (a + c + - (a + b))%Qc with (c + - b)%Qc by ring.
Qed.

Lemma Qc_arith_exact : exact_arith Qc_arith.
Proof.
  constructor; cbn.
  - intros a b c. symmetry. apply Qcplus_assoc.
  - intros a b. unfold Qcminus. ring.
  - intros a b c. destruct (Qc_ltb b c) eqn:E.
    + apply Qc_ltb_lt. apply Qcplus_lt_l. now apply Qc_ltb_lt.
    + apply Qc_ltb_ge. apply Qc_ltb_ge in E.
      apply Qcnot_lt_le. intros H. apply Qcplus_lt_l in H.
      now apply Qcle_not_lt in E.
Qed.

(** C9.  The memoizer does not preserve the meaning of the recursion on
    the floats the interpreter computes with: the cache entry is a
    difference [res[4] - cost], rounded under one accumulated cost and
    added back to another, so that ties between candidates are broken
    differently.  With the costs [alignprs] always passes (1.0, 1.0, 1.1),
    the memoized [levenshtein] aligns "ba" with "abbbb" as "_b__a", where
    the same recursion without the decorator gives "_ba__".  (Only with
    exact arithmetic do the two agree: [levenshtein_memo_plain].) *)
Lemma memoization_changes_alignment_on_floats :
  fst (fst (levenshtein float_arith (lit_1_0 float_arith)
              (lit_1_0 float_arith) (lit_1_1 float_arith) $"ba" $"abbbb"))
  = $"_b__a"
  /\ fst (fst (levenshtein_plain float_arith (lit_1_0 float_arith)
                 (lit_1_0 float_arith) (lit_1_1 float_arith) $"ba" $"abbbb"))
     = $"_ba__"
  /\ levenshtein float_arith (lit_1_0 float_arith)
       (lit_1_0 float_arith) (lit_1_1 float_arith) $"ba" $"abbbb"
     <> levenshtein_plain float_arith (lit_1_0 float_arith)
          (lit_1_0 float_arith) (lit_1_1 float_arith) $"ba" $"abbbb".
Proof.
  assert (H1 : fst (fst (levenshtein float_arith (lit_1_0 float_arith)
              (lit_1_0 float_arith) (lit_1_1 float_arith) $"ba" $"abbbb"))
              = $"_b__a") by (vm_compute; reflexivity).
  assert (H2 : fst (fst (levenshtein_plain float_arith (lit_1_0 float_arith)
                 (lit_1_0 float_arith) (lit_1_1 float_arith) $"ba" $"abbbb"))
              = $"_ba__") by (vm_compute; reflexivity).
  split; [exact H1|]. split; [exact H2|].
  intros E. rewrite E, H2 in H1. discriminate H1.
Qed.

(** ** Edit-distance aligner: cost *)

Section Cost.

Local Open Scope Qc_scope.

Variables inscost delcost substcost : Qc.
Hypothesis ins_pos : 0 < inscost.
Hypothesis del_pos : 0 < delcost.
Hypothesis subst_pos : 0 < substcost.
Hypothesis min_le_1 : Qc_min inscost delcost <= 1.

Let F := of_len Qc_arith.
Let m := Qc_min inscost delcost.
Let cost (s t : str) : Qc :=
  snd (frag_rec Qc_arith inscost delcost substcost s t).

Lemma F_S (n : nat) : F (S n) = F n + 1.
Proof.
  unfold F. cbn [of_len Qc_arith]. apply Qc_is_canon.
  unfold Qcplus, Q2Qc. cbn [this].
  rewrite !Qred_correct, Nat2Z.inj_succ. unfold Z.succ.
  rewrite inject_Z_plus. reflexivity.
Qed.

Lemma F_0 : F 0 = 0.
Proof. reflexivity. Qed.

Lemma Qcle_0_1 : 0 <= 1.
Proof. discriminate. Qed.

Lemma Qcle_plus_r (a b : Qc) : 0 <= b -> a <= a + b.
Proof.
  intros H. rewrite <- (Qcplus_0_r a) at 1.
  apply Qcplus_le_compat; [apply Qcle_refl|exact H].
Qed.

Lemma F_nonneg (n : nat) : 0 <= F n.
Proof.
  induction n as [|n IH]; [rewrite F_0; apply Qcle_refl|].
  rewrite F_S. apply Qcle_trans with (F n); [exact IH|].
  apply Qcle_plus_r, Qcle_0_1.
Qed.

Lemma F_mono (n k : nat) : (n <= k)%nat -> F n <= F k.
Proof.
  induction 1 as [|k Hle IH]; [apply Qcle_refl|].
  rewrite F_S. apply Qcle_trans with (F k); [exact IH|].
  apply Qcle_plus_r, Qcle_0_1.
Qed.

Lemma F_zero_inv (n : nat) : F n = 0 -> n = 0%nat.
Proof.
  destruct n as [|n]; [reflexivity|]. rewrite F_S. intros H. exfalso.
  assert (H1 : 1 <= F n + 1).
  { rewrite <- (Qcplus_0_l 1) at 1.
    apply Qcplus_le_compat; [apply F_nonneg|apply Qcle_refl]. }
  rewrite H in H1. now apply H1.
Qed.

Lemma m_le_ins : m <= inscost.
Proof.
  unfold m, Qc_min. destruct (Qc_ltb delcost inscost) eqn:E.
  - apply Qclt_le_weak. now apply Qc_ltb_lt.
  - apply Qcle_refl.
Qed.

Lemma m_le_del : m <= delcost.
Proof.
  unfold m, Qc_min. destruct (Qc_ltb delcost inscost) eqn:E.
  - apply Qcle_refl.
  - now apply Qc_ltb_ge.
Qed.

Lemma m_nonneg : 0 <= m.
Proof.
  unfold m, Qc_min. destruct (Qc_ltb delcost inscost);
    now apply Qclt_le_weak.
Qed.

Lemma bound_base (n : nat) : F n * m <= F n.
Proof.
  rewrite <- (Qcmult_1_r (F n)) at 2. rewrite !(Qcmult_comm (F n)).
  apply Qcmult_le_compat_r; [exact min_le_1|apply F_nonneg].
Qed.

Lemma bound_same (d : nat) (w c : Qc) :
  0 <= w -> F d * m <= c -> F d * m <= w + c.
Proof.
  intros Hw Hc. rewrite <- (Qcplus_0_l (F d * m)).
  now apply Qcplus_le_compat.
Qed.

Lemma bound_step (d d' : nat) (w c : Qc) :
  (d <= S d')%nat -> m <= w -> F d' * m <= c -> F d * m <= w + c.
Proof.
  intros Hd Hw Hc. apply Qcle_trans with (F (S d') * m).
  - apply Qcmult_le_compat_r; [now apply F_mono|apply m_nonneg].
  - rewrite F_S, Qcmult_plus_distr_l, Qcmult_1_l, Qcplus_comm.
    now apply Qcplus_le_compat.
Qed.

Lemma pick3_cases (a b c : entry Qc_arith) :
  pick3 a b c = a \/ pick3 a b c = b \/ pick3 a b c = c.
Proof.
  unfold pick3. destruct (lt Qc_arith (snd b) (snd a)).
  - destruct (lt Qc_arith (snd c) (snd b)); auto.
  - destruct (lt Qc_arith (snd c) (snd a)); auto.
Qed.

Lemma addcost_nonneg (x y : ascii) :
  0 <= (if Ascii.eqb x y then zero Qc_arith else substcost).
Proof.
  destruct (Ascii.eqb x y); [apply Qcle_refl|now apply Qclt_le_weak].
Qed.

(** The incremental cost of a pair of suffixes is at least the
    difference of their lengths times the smaller of the insertion and
    deletion costs. *)
Lemma cost_lower_bound (s t : str) : F (length_gap s t) * m <= cost s t.
Proof.
  revert t. induction s as [|x s IHs]; intros t;
    induction t as [|y t IHt].
  - unfold cost. cbn. discriminate.
  - unfold cost. cbn [frag_rec snd]. unfold length_gap. cbn [length Nat.sub Nat.add].
    apply bound_base.
  - unfold cost. cbn [frag_rec snd]. unfold length_gap. cbn [length Nat.sub].
    rewrite Nat.add_0_r. apply bound_base.
  - unfold cost. rewrite (frag_rec_cons Qc_arith). cbv zeta.
    match goal with |- _ <= snd (pick3 ?a ?b ?c) =>
      destruct (pick3_cases a b c) as [ -> | [ -> | -> ] ] end;
      cbn [snd add Qc_arith].
    + apply bound_same; [apply addcost_nonneg|]. apply (IHs t).
    + apply bound_step with (length_gap (x :: s) t);
        [unfold length_gap; cbn [length]; lia|apply m_le_ins|apply IHt].
    + apply bound_step with (length_gap s (y :: t));
        [unfold length_gap; cbn [length]; lia|apply m_le_del|apply (IHs (y :: t))].
Qed.

Lemma cost_nonneg (s t : str) : 0 <= cost s t.
Proof.
  apply Qcle_trans with (F (length_gap s t) * m);
    [|apply cost_lower_bound].
  rewrite <- (Qcmult_0_l m).
  apply Qcmult_le_compat_r; [apply F_nonneg|apply m_nonneg].
Qed.

Lemma pos_plus_nonneg (w c : Qc) : 0 < w -> 0 <= c -> 0 < w + c.
Proof.
  intros Hw Hc. apply Qclt_le_trans with w; [exact Hw|].
  now apply Qcle_plus_r.
Qed.

Lemma pos_plus_not_zero (w c : Qc) : 0 < w -> 0 <= c -> w + c <> 0.
Proof.
  intros Hw Hc E. pose proof (pos_plus_nonneg w c Hw Hc) as H.
  rewrite E in H. now apply Qclt_not_eq in H.
Qed.

Lemma cost_zero_inv (s t : str) : cost s t = 0 -> s = t.
Proof.
  revert t. induction s as [|x s IHs]; intros t;
    induction t as [|y t IHt]; intros H.
  - reflexivity.
  - unfold cost in H. cbn [frag_rec snd] in H.
    apply F_zero_inv in H. discriminate H.
  - unfold cost in H. cbn [frag_rec snd] in H.
    apply F_zero_inv in H. discriminate H.
  - unfold cost in H. rewrite (frag_rec_cons Qc_arith) in H. cbv zeta in H.
    match type of H with snd (pick3 ?a ?b ?c) = _ =>
      destruct (pick3_cases a b c) as [E|[E|E]]; rewrite E in H end;
      cbn [snd add Qc_arith] in H.
    + destruct (Ascii.eqb_spec x y) as [->|Hxy].
      * cbn [zero Qc_arith] in H. rewrite Qcplus_0_l in H.
        f_equal. now apply IHs.
      * exfalso. revert H. apply pos_plus_not_zero;
          [exact subst_pos|apply cost_nonneg].
    + exfalso. revert H. apply pos_plus_not_zero;
        [exact ins_pos|apply cost_nonneg].
    + exfalso. revert H. apply pos_plus_not_zero;
        [exact del_pos|apply cost_nonneg].
Qed.

Lemma cost_refl (s : str) : cost s s = 0.
Proof.
  induction s as [|x s IH]; [reflexivity|].
  unfold cost. rewrite (frag_rec_cons Qc_arith). cbv zeta.
  rewrite Ascii.eqb_refl. fold (cost s s). rewrite IH.
  unfold pick3. cbn [snd add zero lt Qc_arith]. rewrite Qcplus_0_l.
  assert (E2 : Qc_ltb
                 (inscost + snd (frag_rec Qc_arith inscost delcost
                                   substcost (x :: s) s)) 0 = false).
  { apply Qc_ltb_ge, Qclt_le_weak, pos_plus_nonneg;
      [exact ins_pos|apply cost_nonneg]. }
  assert (E3 : Qc_ltb
                 (delcost + snd (frag_rec Qc_arith inscost delcost
                                   substcost s (x :: s))) 0 = false).
  { apply Qc_ltb_ge, Qclt_le_weak, pos_plus_nonneg;
      [exact del_pos|apply cost_nonneg]. }
  rewrite E2. cbn [snd]. rewrite E3. reflexivity.
Qed.

Lemma levenshtein_cost (s t : str) :
  snd (levenshtein Qc_arith inscost delcost substcost s t) = cost s t.
Proof.
  rewrite (levenshtein_frag Qc_arith _ _ _ Qc_arith_exact).
  cbn [snd add zero Qc_arith]. apply Qcplus_0_l.
Qed.

End Cost.

(** C6, as stated, fails in two ways.  The base cases of [lrec] charge
    [len(trem)] and [len(srem)], not the insertion and deletion costs:
    with both costs 2, aligning "" with "a" costs 1, below 1 * 2.  And a
    substitution cost of 0 lets "a" and "b" align at cost 0.  Rounding
    breaks the bound as well: with the float costs 0.1, 0.1 and 1.0 the
    six insertions that align "a" with "bbbbbba" add up to less than
    6 * 0.1. *)
Lemma cost_bound_counterexample :
  snd (levenshtein float_arith 2%float 2%float 1%float $"" $"a") = 1%float
  /\ snd (levenshtein Qc_arith (Q2Qc 2) (Q2Qc 2) (Q2Qc 1) $"" $"a") = Q2Qc 1
  /\ ~ (of_len Qc_arith (length_gap $"" $"a") * Qc_min (Q2Qc 2) (Q2Qc 2)
        <= snd (levenshtein Qc_arith (Q2Qc 2) (Q2Qc 2) (Q2Qc 1) $"" $"a"))%Qc
  /\ snd (levenshtein float_arith 1%float 1%float 0%float $"a" $"b") = 0%float
  /\ snd (levenshtein Qc_arith (Q2Qc 1) (Q2Qc 1) (Q2Qc 0) $"a" $"b") = Q2Qc 0
  /\ $"a" <> $"b"
  /\ PrimFloat.ltb
       (snd (levenshtein float_arith 0x1.999999999999ap-4%float
               0x1.999999999999ap-4%float 1%float $"a" $"bbbbbba"))
       (PrimFloat.mul 6%float 0x1.999999999999ap-4%float) = true.
Proof.
  split; [vm_compute; reflexivity|].
  split; [apply Qc_is_canon; vm_compute; reflexivity|].
  split; [intros H; vm_compute in H; now apply H|].
  split; [vm_compute; reflexivity|].
  split; [apply Qc_is_canon; vm_compute; reflexivity|].
  split; [discriminate|].
  vm_compute; reflexivity.
Qed.

(** C6, amended.  In exact arithmetic, for positive insertion, deletion
    and substitution costs whose smaller insertion-or-deletion cost is at
    most 1, the total cost returned by [levenshtein] is at least
    [|len(s) - len(t)|] times [min(inscost, delcost)], and it is 0 if and
    only if [s] equals [t]. *)
Theorem levenshtein_cost_bounds
    (inscost delcost substcost : Qc) (s t : str) :
  (0 < inscost)%Qc -> (0 < delcost)%Qc -> (0 < substcost)%Qc ->
  (Qc_min inscost delcost <= 1)%Qc ->
  let cost := snd (levenshtein Qc_arith inscost delcost substcost s t) in
  (of_len Qc_arith (length_gap s t) * Qc_min inscost delcost <= cost)%Qc
  /\ (cost = Q2Qc 0 <-> s = t).
Proof.
  intros Hi Hd Hs Hm cost. unfold cost. rewrite levenshtein_cost. split.
  - now apply cost_lower_bound.
  - split.
    + now apply cost_zero_inv.
    + intros ->. now apply cost_refl.
Qed.

Lemma levenshtein_cost_bounds_witness :
  let cost := snd (levenshtein Qc_arith (lit_1_0 Qc_arith) (lit_1_0 Qc_arith)
                     (lit_1_1 Qc_arith) $"walk" $"walked") in
  (of_len Qc_arith (length_gap $"walk" $"walked")
   * Qc_min (lit_1_0 Qc_arith) (lit_1_0 Qc_arith) <= cost)%Qc
  /\ (cost = Q2Qc 0 <-> $"walk" = $"walked").
Proof.
  apply levenshtein_cost_bounds; vm_compute; congruence.
Defined.

(** ** Segmenter and rule extractor *)

Lemma filter_app_last (f : ascii -> bool) (u : str) (c : ascii) :
  f c = true -> filter f (u ++ [c]) = filter f u ++ [c].
Proof. intros H. rewrite filter_app. cbn. now rewrite H. Qed.

(** Every rule of a suffix ladder keeps the end-of-word marker on both
    sides. *)
Lemma generate_rules_end_marker (ins outs : str) (r : rule) :
  In r (generate_rules (ins ++ [rmark]) (outs ++ [rmark])) ->
  (exists u, fst r = u ++ [rmark]) /\ (exists v, snd r = v ++ [rmark]).
Proof.
  unfold generate_rules. intros H.
  apply nodup_In, in_map_iff in H as ([a b] & <- & H).
  apply nodup_In, in_map_iff in H as (i & E & H).
  injection E as <- <-. apply in_seq in H. cbn [fst snd].
  rewrite !length_app in H. cbn [length] in H.
  rewrite !replace_char_nil, !skipn_app.
  replace (i - length ins) with 0 by lia.
  replace (i - length outs) with 0 by lia. cbn [skipn].
  split; eexists; now apply filter_app_last.
Qed.

(** C2.  The suffix rules are anchored, the prefix rules are not: the
    ladder drops the leading characters of ["<" + lp], the marker first.
    Training on ("b", "ab") yields the prefix rule [("", "a")], which
    carries no start-of-word marker. *)
Theorem prefix_rule_loses_anchor :
  prefix_suffix_rules_get float_arith $"b" $"ab"
  = ([($"<", $"<a"); ($"", $"a")], [($"b>", $"b>"); ($">", $">")])
  /\ In ($"", $"a") (fst (prefix_suffix_rules_get float_arith $"b" $"ab"))
  /\ starts_with [lmark] $"" = false
  /\ starts_with [lmark] $"a" = false.
Proof.
  assert (E : prefix_suffix_rules_get float_arith $"b" $"ab"
              = ([($"<", $"<a"); ($"", $"a")], [($"b>", $"b>"); ($">", $">")]))
    by (vm_compute; reflexivity).
  rewrite E. repeat split. right; now left.
Qed.

(** *** Where the segmenter does partition the aligned strings *)

Lemma lstrip_length (c : ascii) (s : str) : length (lstrip c s) <= length s.
Proof.
  induction s as [|x s IH]; cbn; [lia|].
  destruct (Ascii.eqb x c); cbn; lia.
Qed.

Lemma leading_gaps_le (s : str) : leading_gaps s <= length s.
Proof. unfold leading_gaps. lia. Qed.

Lemma leading_gaps_nth (s : str) (i : nat) :
  i < leading_gaps s -> nth i s gap = gap.
Proof.
  revert i. induction s as [|x s IH]; intros i; unfold leading_gaps.
  - cbn. lia.
  - cbn [lstrip]. destruct (Ascii.eqb_spec x gap) as [->|Hx].
    + intros H. destruct i as [|i]; [reflexivity|]. cbn [nth].
      apply IH. unfold leading_gaps.
      pose proof (lstrip_length gap s). cbn [length] in H. lia.
    + lia.
Qed.

Lemma leading_gaps_bound (s : str) (p : nat) :
  nth p s gap <> gap -> leading_gaps s <= p.
Proof.
  intros H. destruct (Nat.le_gt_cases (leading_gaps s) p) as [Hle|Hgt];
    [exact Hle|]. exfalso. apply H. now apply leading_gaps_nth.
Qed.

Lemma trailing_gaps_bound (s : str) (p : nat) :
  p < length s -> nth p s gap <> gap ->
  leading_gaps (rev s) <= length s - S p.
Proof.
  intros Hp H. apply leading_gaps_bound.
  rewrite rev_nth by lia.
  now replace (length s - S (length s - S p)) with p by lia.
Qed.

(** No column of an alignment of gap-free strings has a gap on both
    sides. *)
Lemma Align_no_double_gap (s t a b : str) :
  Align s t a b -> gap_free s -> gap_free t ->
  forall p, p < length a -> nth p a gap = gap -> nth p b gap <> gap.
Proof.
  unfold gap_free.
  induction 1 as [|x y s t a b H IH|y s t a b H IH|x s t a b H IH];
    intros Hs Ht p Hp Ha.
  - cbn in Hp. lia.
  - destruct p as [|p]; cbn [nth] in *.
    + intros E. apply Ht. left. now symmetry.
    + apply IH; [intros Hin; apply Hs| intros Hin; apply Ht| |];
        try (now right); [cbn in Hp; lia|exact Ha].
  - destruct p as [|p]; cbn [nth] in *.
    + intros E. apply Ht. left. now symmetry.
    + apply IH; [exact Hs|intros Hin; apply Ht; now right| |];
        [cbn in Hp; lia|exact Ha].
  - destruct p as [|p]; cbn [nth] in *.
    + exfalso. apply Hs. left. exact Ha.
    + apply IH; [intros Hin; apply Hs; now right|exact Ht| |];
        [cbn in Hp; lia|exact Ha].
Qed.

(** An aligned string that spells a non-empty gap-free string is not all
    gap-markers. *)
Lemma strip_gaps_position (a s : str) :
  strip_gaps a = s -> s <> [] ->
  exists p, p < length a /\ nth p a gap <> gap.
Proof.
  intros E Hs. destruct s as [|x s]; [congruence|].
  assert (Hin : In x (strip_gaps a)) by (rewrite E; now left).
  apply filter_In in Hin as [Hin Hx].
  destruct (In_nth a x gap Hin) as (p & Hp & Hnth).
  exists p. split; [exact Hp|]. rewrite Hnth. intros ->.
  now rewrite Ascii.eqb_refl in Hx.
Qed.

Lemma gap_runs_disjoint (a b : str) :
  length a = length b ->
  (forall p, p < length a -> nth p a gap = gap -> nth p b gap <> gap) ->
  leading_gaps a + leading_gaps (rev b) <= length a.
Proof.
  intros Hlen Hcol. destruct (leading_gaps a) as [|k] eqn:E.
  - pose proof (leading_gaps_le (rev b)) as H.
    rewrite length_rev in H. lia.
  - pose proof (leading_gaps_le a) as Hle.
    assert (Hk : nth k a gap = gap) by (apply leading_gaps_nth; lia).
    assert (Hb : nth k b gap <> gap) by (apply Hcol; [lia|exact Hk]).
    pose proof (trailing_gaps_bound b k ltac:(lia) Hb). lia.
Qed.

Lemma gap_runs_within (a : str) (p : nat) :
  p < length a -> nth p a gap <> gap ->
  leading_gaps a + leading_gaps (rev a) <= length a.
Proof.
  intros Hp H. pose proof (leading_gaps_bound a p H).
  pose proof (trailing_gaps_bound a p Hp H). lia.
Qed.

Lemma slices_partition (l t : nat) (a : str) :
  l + t <= length a ->
  slice 0 l a ++ slice l (length a - t) a ++ slice_from (length a - t) a = a.
Proof.
  intros H. unfold slice, slice_from. cbn [skipn]. rewrite Nat.sub_0_r.
  replace (skipn (length a - t) a)
    with (skipn (length a - t - l) (skipn l a))
    by (rewrite skipn_skipn; f_equal; lia).
  now rewrite firstn_skipn, firstn_skipn.
Qed.

(** For a non-empty lemma and a non-empty form, both without gap-marker,
    the six parts of [alignprs] do reconstruct the two aligned strings. *)
Lemma alignprs_partition (A : arith) (lemma form : str) :
  lemma <> [] -> form <> [] -> gap_free lemma -> gap_free form ->
  let al := levenshtein A (lit_1_0 A) (lit_1_0 A) (lit_1_1 A) lemma form in
  let '(lp, lr, ls, fp, fr, fs) := alignprs A lemma form in
  lp ++ lr ++ ls = fst (fst al) /\ fp ++ fr ++ fs = snd (fst al).
Proof.
  intros Hl Hf Gl Gf al. unfold alignprs. fold al.
  pose proof (levenshtein_Align A (lit_1_0 A) (lit_1_0 A) (lit_1_1 A)
                lemma form) as Hal.
  fold al in Hal.
  set (a := fst (fst al)) in *. set (b := snd (fst al)) in *.
  pose proof (Align_length _ _ _ _ Hal) as Hlen.
  destruct (strip_gaps_position a lemma (Align_strip_l _ _ _ _ Hal Gl) Hl)
    as (p & Hp & Hpa).
  destruct (strip_gaps_position b form (Align_strip_r _ _ _ _ Hal Gf) Hf)
    as (q & Hq & Hqb).
  pose proof (gap_runs_within a p Hp Hpa) as H1.
  pose proof (gap_runs_within b q Hq Hqb) as H2.
  pose proof (gap_runs_disjoint a b Hlen
                (Align_no_double_gap _ _ _ _ Hal Gl Gf)) as H3.
  pose proof (gap_runs_disjoint b a (eq_sym Hlen)
                (Align_no_double_gap _ _ _ _ (Align_swap _ _ _ _ Hal) Gf Gl))
    as H4.
  split.
  - apply slices_partition. lia.
  - rewrite Hlen. apply slices_partition. lia.
Qed.

(** C3.  When one of the two strings is empty its aligned string is all
    gap-markers, the leading and the trailing run overlap, and the three
    slices repeat characters: for ("", "a") the aligned pair is
    ("_", "a") and the parts concatenate to "__" and "aa". *)
Theorem alignprs_overlap_on_empty :
  fst (levenshtein float_arith (lit_1_0 float_arith) (lit_1_0 float_arith)
         (lit_1_1 float_arith) $"" $"a") = ($"_", $"a")
  /\ alignprs float_arith $"" $"a" = ($"_", $"", $"_", $"a", $"", $"a")
  /\ (let '(lp, lr, ls, fp, fr, fs) := alignprs float_arith $"" $"a" in
      lp ++ lr ++ ls = $"__" /\ fp ++ fr ++ fs = $"aa").
Proof. repeat split; vm_compute; reflexivity. Qed.

(** ** Round trip of an example without prefix change *)

Lemma replace_same_char (c : ascii) (s : str) : replace [c] [c] s = s.
Proof.
  unfold replace. induction s as [|x s IH]; [reflexivity|].
  cbn [replace_scan starts_with length Nat.sub app]. rewrite andb_true_r.
  destruct (Ascii.eqb_spec c x) as [->|_]; now rewrite IH.
Qed.

Lemma filter_absent (c : ascii) (s : str) :
  ~ In c s -> filter (fun x => negb (Ascii.eqb x c)) s = s.
Proof.
  induction s as [|x s IH]; intros H; [reflexivity|]. cbn [filter].
  destruct (Ascii.eqb_spec x c) as [->|_].
  - exfalso. apply H. now left.
  - cbn [negb]. f_equal. apply IH. intros Hin. apply H. now right.
Qed.

Lemma strip_markers (form : str) :
  reserved_free form ->
  replace [rmark] [] (replace [lmark] [] ([lmark] ++ form ++ [rmark])) = form.
Proof.
  intros (_ & Hl & Hr). rewrite !replace_char_nil. cbn [app filter].
  rewrite Ascii.eqb_refl. cbn [negb].
  rewrite filter_app, (filter_absent lmark form Hl). cbn [filter].
  replace (Ascii.eqb rmark lmark) with false by reflexivity. cbn [negb].
  rewrite filter_app, (filter_absent rmark form Hr). cbn [filter].
  rewrite Ascii.eqb_refl. cbn [negb]. apply app_nil_r.
Qed.

Lemma find_here (p s : str) : starts_with p s = true -> find p s = Some 0.
Proof. intros H. destruct s; cbn [find]; now rewrite H. Qed.

Lemma replace_whole_word (lemma out : str) :
  ~ In lmark lemma ->
  replace (lemma ++ [rmark]) out ([lmark] ++ lemma ++ [rmark])
  = [lmark] ++ out.
Proof.
  intros Hl.
  assert (Hpat : lemma ++ [rmark] <> []) by (destruct lemma; discriminate).
  assert (Hfind : find (lemma ++ [rmark]) ([lmark] ++ lemma ++ [rmark])
                  = Some 1).
  { cbn [app find].
    assert (E : starts_with (lemma ++ [rmark]) (lmark :: lemma ++ [rmark])
                = false).
    { destruct lemma as [|x l]; [reflexivity|]. cbn [app starts_with].
      destruct (Ascii.eqb_spec x lmark) as [->|_]; [|reflexivity].
      exfalso. apply Hl. now left. }
    rewrite E, find_here; [reflexivity|].
    rewrite <- (app_nil_r (lemma ++ [rmark])) at 2. apply starts_with_app. }
  rewrite (replace_find _ _ _ 1 Hpat Hfind). cbn [app firstn Nat.add skipn].
  rewrite skipn_all. destruct (lemma ++ [rmark]); [congruence|].
  cbn [replace replace_scan]. now rewrite app_nil_r.
Qed.

Lemma strip_gaps_split (i : nat) (l : str) :
  length (strip_gaps (firstn i l)) + length (strip_gaps (skipn i l))
  = length (strip_gaps l).
Proof.
  unfold strip_gaps. rewrite <- length_app, <- filter_app.
  now rewrite firstn_skipn.
Qed.

(** The first column of the marked alignment is not a double gap, so every
    later rung of the ladder drops a character on one side at least. *)
Lemma ladder_drops (a b : str) (i : nat) :
  length a = length b ->
  (forall p, p < length a -> nth p a gap = gap -> nth p b gap <> gap) ->
  1 <= i ->
  1 <= length (strip_gaps (firstn i (a ++ [rmark])))
       + length (strip_gaps (firstn i (b ++ [rmark]))).
Proof.
  intros Hlen Hcol Hi. destruct i as [|i]; [lia|].
  destruct a as [|x a], b as [|y b]; try discriminate Hlen.
  - cbn. lia.
  - cbn [app firstn strip_gaps filter].
    destruct (Ascii.eqb_spec x gap) as [->|_]; cbn [negb length]; [|lia].
    destruct (Ascii.eqb_spec y gap) as [->|_]; cbn [negb length]; [|lia].
    exfalso. apply (Hcol 0); cbn; [lia|reflexivity|reflexivity].
Qed.

Lemma generate_rules_top (a b : str) :
  In (strip_gaps (a ++ [rmark]), strip_gaps (b ++ [rmark]))
     (generate_rules (a ++ [rmark]) (b ++ [rmark])).
Proof.
  unfold generate_rules. apply nodup_In, in_map_iff.
  exists (a ++ [rmark], b ++ [rmark]). cbn [fst snd].
  split; [now rewrite !replace_char_nil|].
  apply nodup_In, in_map_iff. exists 0. split; [reflexivity|].
  apply in_seq. rewrite !length_app. cbn. lia.
Qed.

Lemma generate_rules_dominated (a b : str) (r : rule) :
  length a = length b ->
  (forall p, p < length a -> nth p a gap = gap -> nth p b gap <> gap) ->
  In r (generate_rules (a ++ [rmark]) (b ++ [rmark])) ->
  r = (strip_gaps (a ++ [rmark]), strip_gaps (b ++ [rmark]))
  \/ length (fst r) < length (strip_gaps (a ++ [rmark]))
  \/ (length (fst r) = length (strip_gaps (a ++ [rmark]))
      /\ length (snd r) < length (strip_gaps (b ++ [rmark]))).
Proof.
  intros Hlen Hcol H. unfold generate_rules in H.
  apply nodup_In, in_map_iff in H as ([u v] & <- & H).
  apply nodup_In, in_map_iff in H as (i & E & _).
  injection E as <- <-. cbn [fst snd]. rewrite !replace_char_nil.
  fold (strip_gaps (skipn i (a ++ [rmark]))).
  fold (strip_gaps (skipn i (b ++ [rmark]))).
  destruct i as [|i]; [now left|]. right.
  pose proof (ladder_drops a b (S i) Hlen Hcol ltac:(lia)).
  pose proof (strip_gaps_split (S i) (a ++ [rmark])).
  pose proof (strip_gaps_split (S i) (b ++ [rmark])). lia.
Qed.

Lemma store_get_single (msd : str) (rules : list rule) :
  store_get msd (single_store msd rules)
  = Some (map (fun r => (r, 1%Z)) rules).
Proof.
  unfold single_store. cbn [store_get].
  now replace (str_eqb msd msd) with true by (symmetry; now apply str_eqb_eq).
Qed.

(** Among the rules of one example, the whole-word rule wins the suffix
    step whatever the order of the store. *)
Lemma best_suffix_rule_top (a b : str) (ss : list rule) (base : str) :
  length a = length b ->
  (forall p, p < length a -> nth p a gap = gap -> nth p b gap <> gap) ->
  Permutation (generate_rules (a ++ [rmark]) (b ++ [rmark])) ss ->
  contains (strip_gaps (a ++ [rmark])) base = true ->
  best_suffix_rule (map (fun r => (r, 1%Z)) ss) base
  = Some (strip_gaps (a ++ [rmark]), strip_gaps (b ++ [rmark]), 1%Z).
Proof.
  intros Hlen Hcol Hperm Hc.
  set (top_in := strip_gaps (a ++ [rmark])) in *.
  set (top_out := strip_gaps (b ++ [rmark])) in *.
  set (rules := map (fun r => (r, 1%Z)) ss).
  assert (Htop : In (top_in, top_out, 1%Z) (applicable rules base)).
  { apply applicable_spec. split; [|exact Hc].
    apply in_map_iff. exists (top_in, top_out). split; [reflexivity|].
    apply (Permutation_in _ Hperm), generate_rules_top. }
  destruct (best_suffix_rule_spec rules base) as ([[i o] f] & -> & Hin & Hmax).
  { intros E. rewrite E in Htop. destruct Htop. }
  apply applicable_spec in Hin as [Hin _].
  apply in_map_iff in Hin as (r & E & Hr). injection E as E1 E2. subst r f.
  apply (Permutation_in _ (Permutation_sym Hperm)) in Hr.
  pose proof (Hmax _ Htop) as Hle. unfold suffix_key, lex_le in Hle.
  cbn [fst snd] in Hle.
  destruct (generate_rules_dominated a b (i, o) Hlen Hcol Hr) as [E|Hlt].
  - now injection E as -> ->.
  - fold top_in top_out in Hlt. cbn [fst snd] in Hlt. exfalso. lia.
Qed.

Lemma rules_without_prefix_change (A : arith) (lemma form : str) :
  let al := levenshtein A (lit_1_0 A) (lit_1_0 A) (lit_1_1 A) lemma form in
  leading_gaps (fst (fst al)) = 0 ->
  leading_gaps (snd (fst al)) = 0 ->
  prefix_suffix_rules_get A lemma form
  = ([([lmark], [lmark])],
     generate_rules (fst (fst al) ++ [rmark]) (snd (fst al) ++ [rmark])).
Proof.
  intros al Ha Hb. unfold prefix_suffix_rules_get, alignprs. fold al.
  rewrite Ha, Hb. cbn [Nat.max]. unfold slice, slice_from.
  cbn [Nat.sub firstn skipn length Nat.leb orb app].
  rewrite !Nat.sub_0_r, !app_assoc, !firstn_skipn. reflexivity.
Qed.

(** For an example without reserved symbols whose alignment starts with
    no gap-marker on either side, the rules of that example alone, stored
    in any order, make [apply_best_rule] give the form back. *)
Lemma round_trip_without_prefix_change
    (A : arith) (lemma msd form : str) (ps ss : list rule) :
  reserved_free lemma -> reserved_free form ->
  let al := levenshtein A (lit_1_0 A) (lit_1_0 A) (lit_1_1 A) lemma form in
  leading_gaps (fst (fst al)) = 0 ->
  leading_gaps (snd (fst al)) = 0 ->
  Permutation (fst (prefix_suffix_rules_get A lemma form)) ps ->
  Permutation (snd (prefix_suffix_rules_get A lemma form)) ss ->
  apply_best_rule lemma msd (single_store msd ps) (single_store msd ss)
  = form.
Proof.
  intros Rl Rf al Ha Hb Hps Hss.
  rewrite (rules_without_prefix_change A lemma form Ha Hb) in Hps, Hss.
  fold al in Hps, Hss. cbn [fst snd] in Hps, Hss.
  apply Permutation_length_1_inv in Hps. subst ps.
  pose proof (levenshtein_Align A (lit_1_0 A) (lit_1_0 A) (lit_1_1 A)
                lemma form) as Hal.
  fold al in Hal. set (a := fst (fst al)) in *. set (b := snd (fst al)) in *.
  destruct Rl as (Gl & Ll & _). pose proof Rf as (Gf & _ & _).
  pose proof (Align_length _ _ _ _ Hal) as Hlen.
  pose proof (Align_no_double_gap _ _ _ _ Hal Gl Gf) as Hcol.
  assert (Ea : strip_gaps (a ++ [rmark]) = lemma ++ [rmark]).
  { unfold strip_gaps. rewrite filter_app_last by reflexivity.
    f_equal. now apply Align_strip_l with form b. }
  assert (Eb : strip_gaps (b ++ [rmark]) = form ++ [rmark]).
  { unfold strip_gaps. rewrite filter_app_last by reflexivity.
    f_equal. now apply Align_strip_r with lemma a. }
  unfold apply_best_rule, store_mem. rewrite !store_get_single.
  cbn [negb andb].
  assert (Es : suffix_step msd (single_store msd ss)
                 ([lmark] ++ lemma ++ [rmark])
               = [lmark] ++ form ++ [rmark]).
  { unfold suffix_step. rewrite store_get_single.
    rewrite (best_suffix_rule_top a b ss _ Hlen Hcol Hss).
    - cbn [fst snd]. rewrite Ea, Eb. now apply replace_whole_word.
    - rewrite Ea. apply contains_spec. exists [lmark], [].
      now rewrite app_nil_r. }
  rewrite Es.
  assert (Ep : prefix_step msd (single_store msd [([lmark], [lmark])])
                 ([lmark] ++ form ++ [rmark])
               = [lmark] ++ form ++ [rmark]).
  { unfold prefix_step. rewrite store_get_single.
    unfold best_prefix_rule, applicable.
    cbn [map filter fst snd app contains starts_with].
    rewrite Ascii.eqb_refl. cbn [andb orb map py_max max_from fst snd].
    apply replace_same_char. }
  rewrite Ep. now apply strip_markers.
Qed.

(** C4.  The round trip fails.  For ("b", "ab") the extracted prefix rules
    are [("<", "<a")] and [("", "a")], both of frequency 1 and both
    applicable; when the store yields [("", "a")] first it is the one
    applied, at every position, and the result is "aabaa".  For ("", "a")
    no insertion order gives back "a".  (The round trip does hold when the
    alignment starts with no gap-marker: [round_trip_without_prefix_change].) *)
Theorem round_trip_fails :
  (let '(prules, srules) := prefix_suffix_rules_get float_arith $"b" $"ab" in
   Permutation prules [($"", $"a"); ($"<", $"<a")]
   /\ apply_best_rule $"b" $"V"
        (single_store $"V" [($"", $"a"); ($"<", $"<a")])
        (single_store $"V" srules) = $"aabaa")
  /\ (let '(prules, srules) := prefix_suffix_rules_get float_arith $"" $"a" in
      forall ps ss, Permutation prules ps -> Permutation srules ss ->
        apply_best_rule $"" $"V" (single_store $"V" ps) (single_store $"V" ss)
        <> $"a").
Proof.
  split.
  - assert (E : prefix_suffix_rules_get float_arith $"b" $"ab"
                = ([($"<", $"<a"); ($"", $"a")], [($"b>", $"b>"); ($">", $">")]))
      by (vm_compute; reflexivity).
    rewrite E. split; [apply perm_swap|reflexivity].
  - assert (E : prefix_suffix_rules_get float_arith $"" $"a"
                = ([($"<", $"<a"); ($"", $"a")], [($">", $"a>"); ($">", $">")]))
      by (vm_compute; reflexivity).
    rewrite E. intros ps ss Hp Hs.
    apply Permutation_length_2_inv in Hp, Hs.
    destruct Hp as [->| ->], Hs as [->| ->]; vm_compute; discriminate.
Qed.

(* ================================================================= *)
(** * Further properties *)

(** ** Hamming scorer *)

Lemma hamming_nil_r (s : str) : hamming s [] = 0.
Proof. unfold hamming. now rewrite combine_nil. Qed.

Lemma hamming_le_min (s t : str) :
  hamming s t <= Nat.min (length s) (length t).
Proof.
  revert t; induction s as [|x s IH]; intros t; [cbn; lia|].
  destruct t as [|y t]; [rewrite hamming_nil_r; lia|].
  rewrite hamming_cons. cbn [length Nat.min]. specialize (IH t).
  destruct (Ascii.eqb x y); lia.
Qed.

(** X1. The Hamming score does not depend on the order of its two
    arguments, and it never exceeds the length of the shorter one. *)
Theorem hamming_symmetric_bounded (s t : str) :
  hamming s t = hamming t s
  /\ hamming s t <= Nat.min (length s) (length t).
Proof.
  split; [|apply hamming_le_min].
  revert t; induction s as [|x s IH]; intros t.
  - now rewrite hamming_nil_r.
  - destruct t as [|y t]; [now rewrite hamming_nil_r|].
    now rewrite !hamming_cons, IH, (Ascii.eqb_sym x y).
Qed.

(** X2. The Hamming score is 0 exactly when the two strings agree on all
    the positions they share, that is, when one is a prefix of the
    other. *)
Theorem hamming_zero_iff_common_prefix (s t : str) :
  hamming s t = 0 <->
  firstn (Nat.min (length s) (length t)) s
  = firstn (Nat.min (length s) (length t)) t.
Proof.
  revert t; induction s as [|x s IH]; intros t.
  - cbn. split; reflexivity.
  - destruct t as [|y t]; [rewrite hamming_nil_r; cbn; split; reflexivity|].
    rewrite hamming_cons. cbn [length Nat.min firstn].
    destruct (Ascii.eqb_spec x y) as [->|Hxy].
    + cbn [Nat.add]. rewrite IH. split; [now intros ->|].
      intros H. now injection H.
    + split; [discriminate|]. intros H. injection H as H _. contradiction.
Qed.

(** ** Heuristic aligner *)

Lemma strip_gaps_repeat (n : nat) : strip_gaps (repeat gap n) = [].
Proof. induction n as [|n IH]; [reflexivity|]. cbn. exact IH. Qed.

Lemma strip_gaps_app (a b : str) :
  strip_gaps (a ++ b) = strip_gaps a ++ strip_gaps b.
Proof. apply filter_app. Qed.

(** Every candidate pads both strings to the length [slen + tlen] with
    gap-markers only. *)
Lemma halign_candidate_shape (s t : str) (c : str * str) :
  In c (halign_candidates s t) ->
  length (fst c) = length s + length t
  /\ length (snd c) = length s + length t
  /\ strip_gaps (fst c) = strip_gaps s
  /\ strip_gaps (snd c) = strip_gaps t.
Proof.
  unfold halign_candidates. intros H. apply in_app_or in H as [H|H];
    apply in_map_iff in H as (k & <- & H); apply in_seq in H;
    cbn [fst snd upad_candidate lpad_candidate];
    rewrite !length_app, !repeat_length, !strip_gaps_app, !strip_gaps_repeat,
      ?app_nil_r; cbn [app]; repeat split; lia.
Qed.

Lemma halign_candidates_first (s t : str) :
  exists c cs, halign_candidates s t = c :: cs.
Proof.
  unfold halign_candidates. rewrite Nat.add_1_r. cbn [seq map app].
  eexists _, _. reflexivity.
Qed.

(** What the two loops maintain: once a candidate is kept, it is one of
    the candidates tried, [minscore] is its score, and no candidate tried
    scores less. *)
Lemma halign_fold_kept (cs tried : list (str * str)) (st : hstate)
    (u l : str) :
  fst st = Some (u, l) ->
  In (u, l) tried -> snd st = hamming u l ->
  (forall c, In c tried -> snd st <= hamming (fst c) (snd c)) ->
  exists u' l',
    fold_left (fun st c => halign_step st (fst c) (snd c)) cs st
    = (Some (u', l'), hamming u' l')
    /\ In (u', l') (tried ++ cs)
    /\ forall c, In c (tried ++ cs) -> hamming u' l' <= hamming (fst c) (snd c).
Proof.
  revert tried st u l. induction cs as [|c cs IH]; intros tried st u l Hk Hin Hs Hmin.
  - exists u, l. rewrite app_nil_r. cbn [fold_left]. repeat split.
    + destruct st as [o n]. cbn in *. now subst.
    + exact Hin.
    + intros c Hc. rewrite <- Hs. now apply Hmin.
  - cbn [fold_left]. unfold halign_step at 2.
    replace (tried ++ c :: cs) with ((tried ++ [c]) ++ cs)
      by now rewrite <- app_assoc.
    destruct (Nat.ltb_spec (hamming (fst c) (snd c)) (snd st)) as [Hlt|Hge].
    + apply IH with (fst c) (snd c); cbn [fst snd].
      * reflexivity.
      * apply in_or_app. right. left. now destruct c.
      * reflexivity.
      * intros c' Hc'. apply in_app_or in Hc' as [Hc'|[<-|[]]];
          [specialize (Hmin c' Hc'); lia|lia].
    + apply IH with u l; try assumption.
      * apply in_or_app. now left.
      * intros c' Hc'. apply in_app_or in Hc' as [Hc'|[<-|[]]];
          [now apply Hmin|exact Hge].
Qed.

Lemma halign_fold (s t : str) :
  exists u l,
    fold_left (fun st c => halign_step st (fst c) (snd c))
      (halign_candidates s t) (None, length s + length t + 1)
    = (Some (u, l), hamming u l)
    /\ In (u, l) (halign_candidates s t)
    /\ forall c, In c (halign_candidates s t) ->
         hamming u l <= hamming (fst c) (snd c).
Proof.
  destruct (halign_candidates_first s t) as (c & cs & E).
  assert (Hc : In c (halign_candidates s t)) by (rewrite E; now left).
  rewrite E. cbn [fold_left]. unfold halign_step at 2. cbn [snd].
  pose proof (halign_candidate_shape s t c Hc) as (H1 & H2 & _).
  pose proof (hamming_le_min (fst c) (snd c)) as Hle.
  destruct (Nat.ltb_spec (hamming (fst c) (snd c)) (length s + length t + 1))
    as [_|Hge]; [|lia].
  apply (halign_fold_kept cs [c] _ (fst c) (snd c)); cbn [fst snd].
  - reflexivity.
  - left. now destruct c.
  - reflexivity.
  - intros c' [<-|[]]. lia.
Qed.

(** X3. [halign] always finds its variables [bu] and [bl] bound: the first
    candidate scores at most [slen + tlen], below the initial [minscore],
    so the function returns a pair for every two strings. *)
Theorem halign_always_returns (s t : str) :
  exists a b, halign s t = Some (a, b).
Proof.
  unfold halign. destruct (halign_fold s t) as (u & l & -> & _).
  cbn [fst]. eexists _, _. reflexivity.
Qed.

Lemma combine_map_fst_snd (F : list (ascii * ascii)) :
  combine (map fst F) (map snd F) = F.
Proof.
  induction F as [|[x y] F IH]; [reflexivity|]. cbn. now rewrite IH.
Qed.

Lemma clean_strip_fst (bu bl : str) :
  length bu = length bl ->
  strip_gaps (map fst (filter keep_column (combine bu bl))) = strip_gaps bu.
Proof.
  revert bl; induction bu as [|x bu IH]; intros bl Hlen; [reflexivity|].
  destruct bl as [|y bl]; [discriminate|]. injection Hlen as Hlen.
  specialize (IH bl Hlen). unfold strip_gaps in *.
  cbn [combine filter]. unfold keep_column at 1. cbn [fst snd].
  destruct (Ascii.eqb x gap) eqn:Ex, (Ascii.eqb y gap) eqn:Ey;
    cbn [negb orb map filter fst]; rewrite ?Ex; cbn [negb];
    now rewrite IH.
Qed.

Lemma clean_strip_snd (bu bl : str) :
  length bu = length bl ->
  strip_gaps (map snd (filter keep_column (combine bu bl))) = strip_gaps bl.
Proof.
  revert bl; induction bu as [|x bu IH]; intros bl Hlen;
    destruct bl as [|y bl]; try discriminate; [reflexivity|].
  injection Hlen as Hlen.
  specialize (IH bl Hlen). unfold strip_gaps in *.
  cbn [combine filter]. unfold keep_column at 1. cbn [fst snd].
  destruct (Ascii.eqb x gap) eqn:Ex, (Ascii.eqb y gap) eqn:Ey;
    cbn [negb orb map filter snd]; rewrite ?Ey; cbn [negb];
    now rewrite IH.
Qed.

Lemma list_sum_ones (T : Type) (l : list T) :
  list_sum (map (fun _ => 1) l) = length l.
Proof.
  unfold list_sum. induction l as [|x l IH]; [reflexivity|].
  cbn [map fold_right length]. now rewrite IH.
Qed.

(** Dropping the columns that are a gap on both sides leaves the score
    unchanged. *)
Lemma clean_hamming (bu bl : str) :
  hamming (map fst (filter keep_column (combine bu bl)))
          (map snd (filter keep_column (combine bu bl)))
  = hamming bu bl.
Proof.
  unfold hamming. rewrite combine_map_fst_snd, !list_sum_ones.
  induction (combine bu bl) as [|[x y] F IH]; [reflexivity|].
  cbn [filter]. unfold keep_column at 1. cbn [fst snd].
  destruct (Ascii.eqb_spec x gap) as [->|Hx];
    destruct (Ascii.eqb_spec y gap) as [->|Hy]; cbn [negb orb].
  - rewrite Ascii.eqb_refl. cbn [negb]. exact IH.
  - cbn [filter fst snd]. destruct (Ascii.eqb gap y);
      cbn [negb length]; now rewrite IH.
  - cbn [filter fst snd]. destruct (Ascii.eqb x gap);
      cbn [negb length]; now rewrite IH.
  - cbn [filter fst snd]. destruct (Ascii.eqb x y);
      cbn [negb length]; now rewrite IH.
Qed.

Lemma halign_unfold (s t a b : str) :
  halign s t = Some (a, b) ->
  exists bu bl,
    In (bu, bl) (halign_candidates s t)
    /\ (forall c, In c (halign_candidates s t) ->
          hamming bu bl <= hamming (fst c) (snd c))
    /\ a = map fst (filter keep_column (combine bu bl))
    /\ b = map snd (filter keep_column (combine bu bl)).
Proof.
  unfold halign. destruct (halign_fold s t) as (u & l & -> & Hin & Hmin).
  cbn [fst]. intros H. injection H as <- <-. now exists u, l.
Qed.

(** X4. The two strings [halign] returns have the same length, no column
    of theirs is a gap-marker on both sides, and deleting the gap-markers
    gives back what deleting them from the inputs gives: the inputs
    themselves when they contain no gap-marker. *)
Theorem halign_is_alignment (s t a b : str) :
  halign s t = Some (a, b) ->
  length a = length b
  /\ (forall x y, In (x, y) (combine a b) -> x <> gap \/ y <> gap)
  /\ strip_gaps a = strip_gaps s
  /\ strip_gaps b = strip_gaps t.
Proof.
  intros H. apply halign_unfold in H as (bu & bl & Hin & _ & -> & ->).
  apply halign_candidate_shape in Hin as (H1 & H2 & H3 & H4).
  cbn [fst snd] in *. repeat split.
  - now rewrite !length_map.
  - intros x y Hxy. rewrite combine_map_fst_snd in Hxy.
    apply filter_In in Hxy as [_ Hk]. unfold keep_column in Hk.
    cbn [fst snd] in Hk. apply orb_true_iff in Hk as [Hk|Hk];
      [left|right]; intros ->; now rewrite Ascii.eqb_refl in Hk.
  - rewrite clean_strip_fst by lia. exact H3.
  - rewrite clean_strip_snd by lia. exact H4.
Qed.

Lemma halign_is_alignment_witness :
  length $"ab_" = length $"abc"
  /\ (forall x y, In (x, y) (combine $"ab_" $"abc") -> x <> gap \/ y <> gap)
  /\ strip_gaps $"ab_" = strip_gaps $"ab"
  /\ strip_gaps $"abc" = strip_gaps $"abc".
Proof.
  apply (halign_is_alignment $"ab" $"abc" $"ab_" $"abc"). reflexivity.
Defined.

(** X5. The pair [halign] returns scores no more than any of the paddings
    the two loops try. *)
Theorem halign_score_minimal (s t a b : str) (c : str * str) :
  halign s t = Some (a, b) ->
  In c (halign_candidates s t) ->
  hamming a b <= hamming (fst c) (snd c).
Proof.
  intros H Hc. apply halign_unfold in H as (bu & bl & _ & Hmin & -> & ->).
  rewrite clean_hamming. now apply Hmin.
Qed.

Lemma halign_score_minimal_witness :
  hamming $"ab_" $"abc" <= hamming $"___ab" $"_abc_".
Proof.
  apply (halign_score_minimal $"ab" $"abc" $"ab_" $"abc"
           ($"___ab", $"_abc_")).
  - reflexivity.
  - cbn. repeat first [left; reflexivity | right].
Defined.

(** ** Counting leading and trailing symbols *)

Lemma existsb_eqb_In (x : ascii) (chars : str) :
  existsb (Ascii.eqb x) chars = true <-> In x chars.
Proof.
  rewrite existsb_exists. split.
  - intros (y & Hy & E). apply Ascii.eqb_eq in E. now subst.
  - intros H. exists x. split; [exact H|apply Ascii.eqb_refl].
Qed.

Lemma lstrip_chars_length (chars s : str) :
  length (lstrip_chars chars s) <= length s.
Proof.
  induction s as [|x s IH]; cbn; [lia|].
  destruct (existsb (Ascii.eqb x) chars); cbn; lia.
Qed.

Lemma numleadingsyms_cons (chars : str) (x : ascii) (s : str) :
  numleadingsyms (x :: s) chars
  = if existsb (Ascii.eqb x) chars then S (numleadingsyms s chars) else 0.
Proof.
  unfold numleadingsyms. cbn [lstrip_chars].
  pose proof (lstrip_chars_length chars s).
  destruct (existsb (Ascii.eqb x) chars); cbn [length]; lia.
Qed.

(** X6. [numleadingsyms(s, symbol)] is the length of the longest prefix of
    [s] made of characters of [symbol]: it is at most [len(s)], the
    characters before that index all belong to [symbol], the character at
    that index, if there is one, does not, and [lstrip] returns the rest. *)
Theorem numleadingsyms_longest_prefix (s symbol : str) :
  let k := numleadingsyms s symbol in
  k <= length s
  /\ Forall (fun x => In x symbol) (firstn k s)
  /\ (forall x, nth_error s k = Some x -> ~ In x symbol)
  /\ lstrip_chars symbol s = skipn k s.
Proof.
  cbv zeta. induction s as [|x s IH].
  - cbn. split; [lia|]. split; [constructor|].
    split; [discriminate|reflexivity].
  - rewrite numleadingsyms_cons. cbn [lstrip_chars].
    destruct (existsb (Ascii.eqb x) symbol) eqn:E.
    + destruct IH as (H1 & H2 & H3 & H4). cbn [length firstn nth_error skipn].
      split; [lia|]. split; [|split; [exact H3|exact H4]].
      constructor; [now apply existsb_eqb_In|exact H2].
    + cbn [firstn nth_error skipn length]. split; [lia|].
      split; [constructor|]. split; [|reflexivity].
      intros y Hy Hin. injection Hy as <-.
      apply existsb_eqb_In in Hin. congruence.
Qed.

Lemma lstrip_chars_snoc (chars l : str) (x : ascii) :
  lstrip_chars chars (l ++ [x])
  = match lstrip_chars chars l with
    | [] => if existsb (Ascii.eqb x) chars then [] else [x]
    | y :: r => (y :: r) ++ [x]
    end.
Proof.
  induction l as [|y l IH]; cbn [app lstrip_chars]; [reflexivity|].
  destruct (existsb (Ascii.eqb y) chars); [exact IH|reflexivity].
Qed.

Lemma rstrip_chars_rev (chars s : str) :
  rstrip_chars chars s = rev (lstrip_chars chars (rev s)).
Proof.
  induction s as [|x s IH]; [reflexivity|].
  cbn [rstrip_chars rev]. rewrite lstrip_chars_snoc, IH.
  destruct (lstrip_chars chars (rev s)) as [|y r].
  - cbn [rev]. now destruct (existsb (Ascii.eqb x) chars).
  - rewrite rev_app_distr. cbn [rev app].
    destruct (rev r ++ [y]) eqn:E; [now destruct (rev r)|reflexivity].
Qed.

Lemma lstrip_chars_gap (s : str) : lstrip_chars [gap] s = lstrip gap s.
Proof.
  induction s as [|x s IH]; [reflexivity|]. cbn [lstrip_chars lstrip existsb].
  rewrite orb_false_r. now destruct (Ascii.eqb x gap).
Qed.

(** X7. Counting trailing symbols is counting leading symbols of the
    reversed string.  For the gap-marker the two helpers of [main]
    therefore compute what [alignprs] computes with [lstrip] on the string
    and on its reversal. *)
Theorem numtrailingsyms_reverse (s symbol : str) :
  numtrailingsyms s symbol = numleadingsyms (rev s) symbol
  /\ numleadingsyms s [gap] = leading_gaps s
  /\ numtrailingsyms s [gap] = leading_gaps (rev s).
Proof.
  assert (H : forall chars, numtrailingsyms s chars
                            = numleadingsyms (rev s) chars).
  { intros chars. unfold numtrailingsyms, numleadingsyms.
    now rewrite rstrip_chars_rev, !length_rev. }
  split; [apply H|]. split.
  - unfold numleadingsyms, leading_gaps. now rewrite lstrip_chars_gap.
  - rewrite H. unfold numleadingsyms, leading_gaps.
    now rewrite lstrip_chars_gap.
Qed.

(** ** Segmenter *)

Lemma slice_length (a b : nat) (s : str) :
  length (slice a b s) = Nat.min (b - a) (length s - a).
Proof. unfold slice. now rewrite length_firstn, length_skipn. Qed.

Lemma alignprs_lengths (A : arith) (lemma form : str) :
  let '(lp, lr, ls, fp, fr, fs) := alignprs A lemma form in
  length lp = length fp /\ length lr = length fr /\ length ls = length fs.
Proof.
  unfold alignprs.
  pose proof (Align_length _ _ _ _
                (levenshtein_Align A (lit_1_0 A) (lit_1_0 A) (lit_1_1 A)
                   lemma form)) as Hlen.
  set (al := levenshtein A (lit_1_0 A) (lit_1_0 A) (lit_1_1 A) lemma form)
    in *.
  unfold slice_from. rewrite !slice_length, !length_skipn, Hlen.
  repeat split.
Qed.

(** X8. The boundaries of [alignprs] are the same on both sides: the two
    prefix parts have the same length, and so have the two roots and the
    two suffix parts, for every lemma and form. *)
Theorem alignprs_parts_synchronized (A : arith) (lemma form : str) :
  let '(lp, lr, ls, fp, fr, fs) := alignprs A lemma form in
  length lp = length fp /\ length lr = length fr /\ length ls = length fs.
Proof. exact (alignprs_lengths A lemma form). Qed.

(** X9. For a non-empty lemma and a non-empty form without gap-marker, the
    three lemma-side parts of [alignprs] spell the lemma once their
    gap-markers are deleted, and the three form-side parts spell the
    form. *)
Theorem alignprs_parts_spell_inputs (A : arith) (lemma form : str) :
  lemma <> [] -> form <> [] -> gap_free lemma -> gap_free form ->
  let '(lp, lr, ls, fp, fr, fs) := alignprs A lemma form in
  strip_gaps (lp ++ lr ++ ls) = lemma /\ strip_gaps (fp ++ fr ++ fs) = form.
Proof.
  intros Hl Hf Gl Gf.
  pose proof (alignprs_partition A lemma form Hl Hf Gl Gf) as H.
  cbv zeta in H.
  pose proof (levenshtein_Align A (lit_1_0 A) (lit_1_0 A) (lit_1_1 A)
                lemma form) as Hal.
  destruct (alignprs A lemma form) as [[[[[lp lr] ls] fp] fr] fs].
  destruct H as [-> ->]. split.
  - now apply Align_strip_l with form
      (snd (fst (levenshtein A (lit_1_0 A) (lit_1_0 A) (lit_1_1 A) lemma form))).
  - now apply Align_strip_r with lemma
      (fst (fst (levenshtein A (lit_1_0 A) (lit_1_0 A) (lit_1_1 A) lemma form))).
Qed.

Lemma alignprs_parts_spell_inputs_witness :
  let '(lp, lr, ls, fp, fr, fs) := alignprs float_arith $"walk" $"walked" in
  strip_gaps (lp ++ lr ++ ls) = $"walk"
  /\ strip_gaps (fp ++ fr ++ fs) = $"walked".
Proof.
  apply (alignprs_parts_spell_inputs float_arith $"walk" $"walked");
    try discriminate;
    unfold gap_free; cbn; intros H;
    repeat (destruct H as [H|H]; [discriminate H|]); exact H.
Defined.

(** ** Rule extractor *)

Lemma strip_gaps_gap_free (s : str) : gap_free (strip_gaps s).
Proof.
  unfold gap_free, strip_gaps. intros H. apply filter_In in H as [_ H].
  now rewrite Ascii.eqb_refl in H.
Qed.

Lemma nodup_length_le (l : list rule) :
  length (nodup rule_eq_dec l) <= length l.
Proof.
  induction l as [|r l IH]; [cbn; lia|]. cbn [nodup length].
  destruct (in_dec rule_eq_dec r l); cbn [length]; lia.
Qed.

Lemma generate_rules_gap_free (ins outs : str) (r : rule) :
  In r (generate_rules ins outs) -> gap_free (fst r) /\ gap_free (snd r).
Proof.
  unfold generate_rules. intros H.
  apply nodup_In, in_map_iff in H as ([u v] & <- & _). cbn [fst snd].
  rewrite !replace_char_nil. split; apply strip_gaps_gap_free.
Qed.

(** X10. [generate_rules] returns a set of at most [min(len(ins),
    len(outs))] rules, and no rule contains a gap-marker on either
    side. *)
Theorem generate_rules_gap_free_set (ins outs : str) :
  NoDup (generate_rules ins outs)
  /\ length (generate_rules ins outs) <= Nat.min (length ins) (length outs)
  /\ Forall (fun r => gap_free (fst r) /\ gap_free (snd r))
       (generate_rules ins outs).
Proof.
  split; [apply NoDup_nodup|]. split.
  - unfold generate_rules.
    eapply Nat.le_trans; [apply nodup_length_le|]. rewrite length_map.
    eapply Nat.le_trans; [apply nodup_length_le|].
    now rewrite length_map, length_seq.
  - apply Forall_forall. intros r. apply generate_rules_gap_free.
Qed.

Lemma generate_rules_rung (ins outs : str) (i : nat) :
  i < Nat.min (length ins) (length outs) ->
  In (strip_gaps (skipn i ins), strip_gaps (skipn i outs))
     (generate_rules ins outs).
Proof.
  intros Hi. unfold generate_rules. apply nodup_In, in_map_iff.
  exists (skipn i ins, skipn i outs). cbn [fst snd].
  split; [now rewrite !replace_char_nil|].
  apply nodup_In, in_map_iff. exists i. split; [reflexivity|].
  apply in_seq. lia.
Qed.

Lemma generate_rules_identity_rung (X Y : str) :
  length X = length Y ->
  In ([rmark], [rmark]) (generate_rules (X ++ [rmark]) (Y ++ [rmark])).
Proof.
  intros Hlen.
  assert (E1 : skipn (length X) (X ++ [rmark]) = [rmark])
    by now rewrite skipn_app, skipn_all, Nat.sub_diag.
  assert (E2 : skipn (length X) (Y ++ [rmark]) = [rmark])
    by now rewrite Hlen, skipn_app, skipn_all, Nat.sub_diag.
  pose proof (generate_rules_rung (X ++ [rmark]) (Y ++ [rmark]) (length X))
    as H.
  rewrite E1, E2 in H. apply H. rewrite !length_app. cbn [length]. lia.
Qed.

Lemma anchor_rules_present (A : arith) (lemma form : str) :
  let '(lp, lr, ls, fp, fr, fs) := alignprs A lemma form in
  In (lmark :: strip_gaps lp, lmark :: strip_gaps fp)
     (fst (prefix_suffix_rules_get A lemma form))
  /\ In ([rmark], [rmark]) (snd (prefix_suffix_rules_get A lemma form)).
Proof.
  pose proof (alignprs_lengths A lemma form) as Hlen.
  unfold prefix_suffix_rules_get.
  destruct (alignprs A lemma form) as [[[[[lp lr] ls] fp] fr] fs].
  destruct Hlen as (H1 & H2 & H3). cbn [Nat.leb orb fst snd]. split.
  - apply (generate_rules_rung ([lmark] ++ lp) ([lmark] ++ fp) 0).
    cbn [app length]. lia.
  - rewrite !app_assoc. apply generate_rules_identity_rung.
    rewrite !length_app. lia.
Qed.

(** X11. Whatever the lemma and the form, [prefix_suffix_rules_get]
    returns among the prefix rules the rule anchored on ['<'] that maps the
    whole prefix part, and among the suffix rules the rule [(">", ">")];
    in particular neither set is ever empty. *)
Theorem rule_sets_always_hold_anchor_rules (A : arith) (lemma form : str) :
  let '(lp, lr, ls, fp, fr, fs) := alignprs A lemma form in
  In (lmark :: strip_gaps lp, lmark :: strip_gaps fp)
     (fst (prefix_suffix_rules_get A lemma form))
  /\ In ([rmark], [rmark]) (snd (prefix_suffix_rules_get A lemma form)).
Proof. exact (anchor_rules_present A lemma form). Qed.

(** X12. Every suffix rule that [prefix_suffix_rules_get] returns ends
    with the end-of-word marker on both sides and contains no
    gap-marker. *)
Theorem suffix_rules_end_with_marker
    (A : arith) (lemma form : str) (r : rule) :
  In r (snd (prefix_suffix_rules_get A lemma form)) ->
  (exists u, fst r = u ++ [rmark]) /\ (exists v, snd r = v ++ [rmark])
  /\ gap_free (fst r) /\ gap_free (snd r).
Proof.
  unfold prefix_suffix_rules_get.
  destruct (alignprs A lemma form) as [[[[[lp lr] ls] fp] fr] fs].
  cbn [snd]. intros H.
  destruct (generate_rules_gap_free _ _ r H) as [G1 G2].
  rewrite !app_assoc in H. apply generate_rules_end_marker in H as [E1 E2].
  repeat split; assumption.
Qed.

Lemma suffix_rules_end_with_marker_witness :
  (exists u, fst ($"k>", $"ked>") = u ++ [rmark])
  /\ (exists v, snd ($"k>", $"ked>") = v ++ [rmark])
  /\ gap_free (fst ($"k>", $"ked>")) /\ gap_free (snd ($"k>", $"ked>")).
Proof.
  apply (suffix_rules_end_with_marker float_arith $"walk" $"walked").
  vm_compute. repeat first [left; reflexivity | right].
Defined.

(** ** Rule applier *)

Lemma store_get_present (msd : str) (st : store) :
  In msd (map fst st) -> exists rules, store_get msd st = Some rules.
Proof.
  induction st as [|[k v] st IH]; intros H; [destruct H|].
  cbn [store_get]. destruct (str_eqb msd k) eqn:E; [now exists v|].
  destruct H as [H|H]; [|now apply IH].
  cbn in H. subst k. assert (str_eqb msd msd = true) by now apply str_eqb_eq.
  congruence.
Qed.

Lemma store_mem_seen (msd : str) (allprules allsrules : store) :
  In msd (map fst allprules) \/ In msd (map fst allsrules) ->
  negb (store_mem msd allprules) && negb (store_mem msd allsrules) = false.
Proof.
  unfold store_mem. intros [H|H]; apply store_get_present in H as [r ->];
    [reflexivity|]. now destruct (store_get msd allprules).
Qed.

(** X13. When the MSD is a key of one of the stores, the string that
    [apply_best_rule] returns contains no boundary marker, whatever the
    rules put into it. *)
Theorem apply_best_rule_output_has_no_marker
    (lemma msd : str) (allprules allsrules : store) :
  In msd (map fst allprules) \/ In msd (map fst allsrules) ->
  ~ In lmark (apply_best_rule lemma msd allprules allsrules)
  /\ ~ In rmark (apply_best_rule lemma msd allprules allsrules).
Proof.
  intros H. unfold apply_best_rule. rewrite (store_mem_seen _ _ _ H).
  rewrite !replace_char_nil. split; intros Hin.
  - apply filter_In in Hin as [Hin _]. apply filter_In in Hin as [_ Hin].
    now rewrite Ascii.eqb_refl in Hin.
  - apply filter_In in Hin as [_ Hin]. now rewrite Ascii.eqb_refl in Hin.
Qed.

Lemma apply_best_rule_output_has_no_marker_witness :
  ~ In lmark (apply_best_rule $"talk" $"V;PST" []
                [($"V;PST", [(($">", $"<ed>"), 1%Z)])])
  /\ ~ In rmark (apply_best_rule $"talk" $"V;PST" []
                   [($"V;PST", [(($">", $"<ed>"), 1%Z)])]).
Proof.
  apply apply_best_rule_output_has_no_marker. right. left. reflexivity.
Defined.

Lemma applicable_none (rules : ruleset) (base : str) :
  (forall i o f, In ((i, o), f) rules -> contains i base = false) ->
  applicable rules base = [].
Proof.
  intros H. destruct (applicable rules base) as [|[[i o] f] l] eqn:E;
    [reflexivity|].
  assert (Hin : In (i, o, f) (applicable rules base)) by (rewrite E; now left).
  apply applicable_spec in Hin as [Hin Hc]. rewrite (H i o f Hin) in Hc.
  discriminate Hc.
Qed.

Lemma strip_markers_only (s : str) :
  ~ In lmark s -> ~ In rmark s ->
  replace [rmark] [] (replace [lmark] [] ([lmark] ++ s ++ [rmark])) = s.
Proof.
  intros Hl Hr. rewrite !replace_char_nil. cbn [app filter].
  rewrite Ascii.eqb_refl. cbn [negb].
  rewrite filter_app, (filter_absent lmark s Hl). cbn [filter].
  replace (Ascii.eqb rmark lmark) with false by reflexivity. cbn [negb].
  rewrite filter_app, (filter_absent rmark s Hr). cbn [filter].
  rewrite Ascii.eqb_refl. cbn [negb]. apply app_nil_r.
Qed.

(** X14. When the MSD is known but no rule registered for it has an input
    pattern occurring in ["<" + lemma + ">"], both steps leave the base
    alone and a lemma without boundary markers is returned unchanged. *)
Theorem apply_best_rule_without_applicable_rule
    (lemma msd : str) (allprules allsrules : store) :
  In msd (map fst allprules) \/ In msd (map fst allsrules) ->
  (forall rules i o f,
     store_get msd allprules = Some rules
     \/ store_get msd allsrules = Some rules ->
     In ((i, o), f) rules ->
     contains i ([lmark] ++ lemma ++ [rmark]) = false) ->
  ~ In lmark lemma -> ~ In rmark lemma ->
  apply_best_rule lemma msd allprules allsrules = lemma.
Proof.
  intros Hseen Hnone Hl Hr. unfold apply_best_rule.
  rewrite (store_mem_seen _ _ _ Hseen).
  assert (Es : suffix_step msd allsrules ([lmark] ++ lemma ++ [rmark])
               = [lmark] ++ lemma ++ [rmark]).
  { unfold suffix_step. destruct (store_get msd allsrules) as [rules|] eqn:E;
      [|reflexivity].
    unfold best_suffix_rule. rewrite applicable_none; [reflexivity|].
    intros i o f. apply Hnone. now right. }
  rewrite Es.
  assert (Ep : prefix_step msd allprules ([lmark] ++ lemma ++ [rmark])
               = [lmark] ++ lemma ++ [rmark]).
  { unfold prefix_step. destruct (store_get msd allprules) as [rules|] eqn:E;
      [|reflexivity].
    unfold best_prefix_rule. rewrite applicable_none; [reflexivity|].
    intros i o f. apply Hnone. now left. }
  rewrite Ep. now apply strip_markers_only.
Qed.

Lemma apply_best_rule_without_applicable_rule_witness :
  apply_best_rule $"talk" $"V;PST" []
    [($"V;PST", [(($"e>", $"ed>"), 3%Z)])] = $"talk".
Proof.
  apply apply_best_rule_without_applicable_rule.
  - right. left. reflexivity.
  - intros rules i o f [H|H] Hin; [discriminate H|].
    injection H as <-. destruct Hin as [Hin|[]].
    injection Hin as <- _ _. reflexivity.
  - cbn. intros H. repeat (destruct H as [H|H]; [discriminate H|]). exact H.
  - cbn. intros H. repeat (destruct H as [H|H]; [discriminate H|]). exact H.
Defined.

(** [max] with the frequency as key returns the earliest element of
    greatest frequency. *)
Lemma max_from_prefix_first (l : list (str * str * Z)) (best : str * str * Z) :
  exists l1 l2,
    best :: l = l1 ++ max_from prefix_gt best l :: l2
    /\ (forall x, In x l1 -> (snd x < snd (max_from prefix_gt best l))%Z)
    /\ (forall x, In x l2 -> (snd x <= snd (max_from prefix_gt best l))%Z).
Proof.
  revert best. induction l as [|y l IH]; intros best; cbn [max_from].
  - exists [], []. repeat split; intros x [].
  - destruct (prefix_gt y best) eqn:G; unfold prefix_gt in G;
      [apply Z.ltb_lt in G; rename G into Hlt
      |apply Z.ltb_ge in G; rename G into Hge].
    + destruct (IH y) as (l1 & l2 & E & H1 & H2).
      exists (best :: l1), l2. rewrite E. split; [reflexivity|]. split; [|exact H2].
      intros x [<-|Hx]; [|now apply H1].
      assert (Hy : (snd y <= snd (max_from prefix_gt y l))%Z).
      { destruct l1 as [|z l1].
        - cbn [app] in E. injection E as E _. rewrite <- E. lia.
        - cbn [app] in E. injection E as E _. subst z.
          apply Z.lt_le_incl, H1. now left. }
      lia.
    + destruct (IH best) as (l1 & l2 & E & H1 & H2).
      destruct l1 as [|z l1].
      * cbn [app] in E. injection E as E1 E2. subst l2.
        rewrite <- E1 in H2 |- *. exists [], (y :: l).
        split; [reflexivity|]. split; [intros x []|].
        intros x [<-|Hx]; [exact Hge|now apply H2].
      * cbn [app] in E. injection E as E1 E2. subst z.
        exists (best :: y :: l1), l2. cbn [app].
        split; [now rewrite <- E2|]. split; [|exact H2].
        assert (Hb : (snd best < snd (max_from prefix_gt best l))%Z)
          by (apply H1; now left).
        intros x [<-|[<-|Hx]]; [exact Hb|lia|apply H1; now right].
Qed.

(** X15. In the prefix step the selected rule is an applicable rule of
    greatest frequency, and among the applicable rules of that frequency it
    is the one the store yields first: every applicable rule before it has
    a strictly smaller frequency, none after it has a greater one. *)
Theorem prefix_selection_by_frequency
    (rules : ruleset) (base : str) (m : str * str * Z) :
  best_prefix_rule rules base = Some m ->
  exists l1 l2,
    applicable rules base = l1 ++ m :: l2
    /\ (forall x, In x l1 -> (snd x < snd m)%Z)
    /\ (forall x, In x l2 -> (snd x <= snd m)%Z).
Proof.
  unfold best_prefix_rule. destruct (applicable rules base) as [|x l];
    [discriminate|].
  cbn [py_max]. intros H. injection H as <-. apply max_from_prefix_first.
Qed.

Lemma prefix_selection_by_frequency_witness :
  exists l1 l2,
    applicable [(($"<", $"<a"), 2%Z); (($"<", $"<be"), 5%Z);
                (($"<t", $"<ge"), 5%Z)] $"<talk>"
    = l1 ++ ($"<", $"<be", 5%Z) :: l2
    /\ (forall x, In x l1 -> (snd x < snd ($"<", $"<be", 5%Z))%Z)
    /\ (forall x, In x l2 -> (snd x <= snd ($"<", $"<be", 5%Z))%Z).
Proof.
  apply prefix_selection_by_frequency. reflexivity.
Defined.

(** X16. The evaluation loop abstains in both orientations: for an MSD
    that is a key of neither store the predicted form is the lemma itself,
    also when the language was found prefixing and the lemma is reversed
    before and after the call. *)
Theorem predict_unseen_msd
    (reversed : bool) (lemma msd : str) (allprules allsrules : store) :
  ~ In msd (map fst allprules) ->
  ~ In msd (map fst allsrules) ->
  predict reversed lemma msd allprules allsrules = lemma.
Proof.
  intros Hp Hs. unfold predict, apply_best_rule, store_mem.
  rewrite (store_get_absent _ _ Hp), (store_get_absent _ _ Hs).
  cbn [negb andb]. destruct reversed; [apply rev_involutive|reflexivity].
Qed.

Lemma predict_unseen_msd_witness :
  predict true $"cat" $"UNSEEN"
    [($"V;PST", [(($"<", $"<"), 1%Z)])]
    [($"V;PST", [(($">", $"ed>"), 1%Z)])] = $"cat".
Proof.
  apply predict_unseen_msd; cbn; intros [H|[]]; discriminate H.
Defined.

(** ** Training loop *)

Lemma str_eqb_refl (a : str) : str_eqb a a = true.
Proof. now apply str_eqb_eq. Qed.

Lemma str_eqb_sym (a b : str) : str_eqb a b = str_eqb b a.
Proof.
  unfold str_eqb. destruct (str_eq_dec a b), (str_eq_dec b a); congruence.
Qed.

Lemma str_eqb_neq (a b : str) : str_eqb a b = false <-> a <> b.
Proof. unfold str_eqb. destruct (str_eq_dec a b); split; congruence. Qed.

Lemma rule_eqb_eq (a b : rule) : rule_eqb a b = true <-> a = b.
Proof. unfold rule_eqb. destruct (rule_eq_dec a b); split; congruence. Qed.

Lemma rule_eqb_neq (a b : rule) : rule_eqb a b = false <-> a <> b.
Proof. unfold rule_eqb. destruct (rule_eq_dec a b); split; congruence. Qed.

Lemma store_get_put_same (msd : str) (v : ruleset) (st : store) :
  store_get msd (store_put msd v st) = Some v.
Proof.
  induction st as [|[k w] st IH]; cbn [store_put store_get].
  - now rewrite str_eqb_refl.
  - destruct (str_eqb msd k) eqn:E; cbn [store_get]; now rewrite E.
Qed.

Lemma store_get_put_other (msd msd' : str) (v : ruleset) (st : store) :
  msd' <> msd -> store_get msd' (store_put msd v st) = store_get msd' st.
Proof.
  intros Hne. apply str_eqb_neq in Hne.
  induction st as [|[k w] st IH]; cbn [store_put store_get].
  - now rewrite Hne.
  - destruct (str_eqb msd k) eqn:E; cbn [store_get].
    + apply str_eqb_eq in E. subst k. now rewrite Hne.
    + destruct (str_eqb msd' k); [reflexivity|exact IH].
Qed.

Lemma ruleset_get_put_same (r : rule) (f : Z) (rs : ruleset) :
  ruleset_get r (ruleset_put r f rs) = Some f.
Proof.
  assert (Hr : rule_eqb r r = true) by now apply rule_eqb_eq.
  induction rs as [|[k g] rs IH]; cbn [ruleset_put ruleset_get].
  - now rewrite Hr.
  - destruct (rule_eqb r k) eqn:E; cbn [ruleset_get]; now rewrite E.
Qed.

Lemma ruleset_get_put_other (r r' : rule) (f : Z) (rs : ruleset) :
  r' <> r -> ruleset_get r' (ruleset_put r f rs) = ruleset_get r' rs.
Proof.
  intros Hne. apply rule_eqb_neq in Hne.
  induction rs as [|[k g] rs IH]; cbn [ruleset_put ruleset_get].
  - now rewrite Hne.
  - destruct (rule_eqb r k) eqn:E; cbn [ruleset_get].
    + apply rule_eqb_eq in E. subst k. now rewrite Hne.
    + destruct (rule_eqb r' k); [reflexivity|exact IH].
Qed.

Lemma indicator_in_cons (r r0 : rule) (rules : list rule) :
  ~ In r0 rules ->
  indicator (if in_dec rule_eq_dec r (r0 :: rules) then true else false)
  = (indicator (rule_eqb r r0)
     + indicator (if in_dec rule_eq_dec r rules then true else false))%Z.
Proof.
  intros Hnot. unfold rule_eqb.
  destruct (in_dec rule_eq_dec r (r0 :: rules)) as [Hin|Hin],
    (rule_eq_dec r r0) as [E|E], (in_dec rule_eq_dec r rules) as [H|H];
    cbn; try reflexivity; exfalso.
  - subst. contradiction.
  - destruct Hin as [Hin|Hin]; [now subst|contradiction].
  - apply Hin. left. now symmetry.
  - apply Hin. left. now symmetry.
  - apply Hin. now right.
Qed.

(** Counting one rule under an MSD that has its dictionary. *)
Lemma count_one (msd : str) (r0 : rule) (rs : ruleset) (st : store)
    (msd' : str) (r : rule) :
  store_get msd st = Some rs ->
  let rs' := match ruleset_get r0 rs with
             | Some f => ruleset_put r0 (f + 1)%Z rs
             | None => ruleset_put r0 1%Z rs
             end in
  freq msd' r (store_put msd rs' st)
  = (freq msd' r st + indicator (str_eqb msd' msd && rule_eqb r r0))%Z.
Proof.
  intros Hget rs'. unfold freq.
  destruct (str_eqb msd' msd) eqn:Em.
  - apply str_eqb_eq in Em. subst msd'.
    rewrite store_get_put_same, Hget. cbn [andb].
    destruct (rule_eqb r r0) eqn:Er.
    + apply rule_eqb_eq in Er. subst r0. subst rs'.
      destruct (ruleset_get r rs); rewrite ruleset_get_put_same; cbn; lia.
    + apply rule_eqb_neq in Er. subst rs'.
      destruct (ruleset_get r0 rs); rewrite ruleset_get_put_other by exact Er;
        cbn; lia.
  - apply str_eqb_neq in Em. rewrite store_get_put_other by exact Em.
    cbn. lia.
Qed.

Lemma count_rules_spec (msd : str) (rules : list rule) (st : store) :
  NoDup rules ->
  (rules <> [] -> store_get msd st <> None) ->
  exists st',
    count_rules msd rules st = Some st'
    /\ forall msd' r,
         freq msd' r st'
         = (freq msd' r st
            + indicator (str_eqb msd' msd
                         && if in_dec rule_eq_dec r rules
                            then true else false))%Z.
Proof.
  revert st. induction rules as [|r0 rules IH]; intros st Hnd Hkey.
  - exists st. split; [reflexivity|]. intros msd' r.
    rewrite andb_false_r. cbn. lia.
  - cbn [count_rules]. inversion Hnd as [|? ? Hnot Hnd']; subst.
    destruct (store_get msd st) as [rs|] eqn:Hget;
      [|exfalso; now apply Hkey].
    set (rs' := match ruleset_get r0 rs with
                | Some f => ruleset_put r0 (f + 1)%Z rs
                | None => ruleset_put r0 1%Z rs
                end).
    destruct (IH (store_put msd rs' st) Hnd') as (st' & -> & Hfreq).
    { intros _. now rewrite store_get_put_same. }
    exists st'. split; [reflexivity|]. intros msd' r.
    rewrite Hfreq. unfold rs'. rewrite (count_one msd r0 rs st msd' r Hget).
    destruct (str_eqb msd' msd); cbn [andb]; [|cbn; lia].
    rewrite (indicator_in_cons r r0 rules Hnot). lia.
Qed.

Lemma freq_init_msd (msd : str) (rules : list rule) (st : store)
    (msd' : str) (r : rule) :
  freq msd' r (init_msd msd rules st) = freq msd' r st.
Proof.
  unfold init_msd, store_mem.
  destruct (store_get msd st) as [rs|] eqn:Hget; cbn [negb andb];
    [reflexivity|].
  destruct (0 <? length rules); [|reflexivity]. unfold freq.
  destruct (str_eq_dec msd' msd) as [->|Hne].
  - now rewrite store_get_put_same, Hget.
  - now rewrite store_get_put_other.
Qed.

Lemma init_msd_key (msd : str) (rules : list rule) (st : store) :
  rules <> [] -> store_get msd (init_msd msd rules st) <> None.
Proof.
  intros Hne. unfold init_msd, store_mem.
  destruct (store_get msd st) as [rs|] eqn:Hget; cbn [negb andb].
  - now rewrite Hget.
  - destruct rules; [congruence|]. cbn [length Nat.ltb Nat.leb].
    now rewrite store_get_put_same.
Qed.

Lemma prefix_suffix_rules_NoDup (A : arith) (lemma form : str) :
  NoDup (fst (prefix_suffix_rules_get A lemma form))
  /\ NoDup (snd (prefix_suffix_rules_get A lemma form)).
Proof.
  unfold prefix_suffix_rules_get.
  destruct (alignprs A lemma form) as [[[[[lp lr] ls] fp] fr] fs].
  cbn [Nat.leb orb fst snd]. split; apply NoDup_nodup.
Qed.

Lemma train_line_spec (A : arith) (reversed : bool) (l : line)
    (stores : store * store) :
  exists stores',
    train_line A reversed l stores = Some stores'
    /\ forall msd r,
         freq msd r (fst stores')
         = (freq msd r (fst stores)
            + indicator (line_yields A reversed false msd r l))%Z
         /\ freq msd r (snd stores')
            = (freq msd r (snd stores)
               + indicator (line_yields A reversed true msd r l))%Z.
Proof.
  destruct l as [[lemma m] form]. unfold train_line, line_yields.
  pose proof (prefix_suffix_rules_NoDup A (orient reversed lemma)
                (orient reversed form)) as [Np Ns].
  destruct (prefix_suffix_rules_get A (orient reversed lemma)
              (orient reversed form)) as [prules srules].
  cbn [fst snd] in *.
  destruct (count_rules_spec m prules (init_msd m prules (fst stores)) Np)
    as (P & -> & HP); [apply init_msd_key|].
  destruct (count_rules_spec m srules (init_msd m srules (snd stores)) Ns)
    as (S & -> & HS); [apply init_msd_key|].
  exists (P, S). split; [reflexivity|]. intros msd r. cbn [fst snd].
  rewrite HP, HS, !freq_init_msd, (str_eqb_sym msd m). split; reflexivity.
Qed.

Lemma train_lines_spec (A : arith) (reversed : bool) (lines : list line)
    (stores : store * store) :
  exists stores',
    train_lines A reversed lines stores = Some stores'
    /\ forall msd r,
         freq msd r (fst stores')
         = (freq msd r (fst stores)
            + Z.of_nat
                (length (filter (line_yields A reversed false msd r) lines)))%Z
         /\ freq msd r (snd stores')
            = (freq msd r (snd stores)
               + Z.of_nat
                   (length (filter (line_yields A reversed true msd r) lines)))%Z.
Proof.
  revert stores. induction lines as [|l lines IH]; intros stores.
  - exists stores. split; [reflexivity|]. intros msd r. cbn. lia.
  - cbn [train_lines].
    destruct (train_line_spec A reversed l stores) as (st1 & -> & H1).
    destruct (IH st1) as (st2 & -> & H2).
    exists st2. split; [reflexivity|]. intros msd r.
    destruct (H1 msd r) as [Hp1 Hs1], (H2 msd r) as [Hp2 Hs2].
    rewrite Hp2, Hs2, Hp1, Hs1. cbn [filter].
    destruct (line_yields A reversed false msd r l),
      (line_yields A reversed true msd r l); cbn [indicator length]; lia.
Qed.

(** X17. Accumulating the rules never fails on a missing key, and the
    stores it builds from empty ones count occurrences: the frequency of a
    rule under an MSD is the number of training lines with that MSD whose
    prefix rules (for the prefix store) or suffix rules (for the suffix
    store) contain the rule; it is 0 for a rule never extracted. *)
Theorem training_counts_lines
    (A : arith) (reversed : bool) (lines : list line) :
  exists allprules allsrules,
    train_lines A reversed lines ([], []) = Some (allprules, allsrules)
    /\ forall msd r,
         freq msd r allprules
         = Z.of_nat (length (filter (line_yields A reversed false msd r) lines))
         /\ freq msd r allsrules
            = Z.of_nat
                (length (filter (line_yields A reversed true msd r) lines)).
Proof.
  destruct (train_lines_spec A reversed lines ([], [])) as ([P S] & E & H).
  exists P, S. split; [exact E|]. intros msd r.
  destruct (H msd r) as [Hp Hs]. cbn [fst snd] in Hp, Hs.
  now rewrite Hp, Hs.
Qed.

Lemma filter_length_perm (T : Type) (f : T -> bool) (l l' : list T) :
  Permutation l l' -> length (filter f l) = length (filter f l').
Proof.
  induction 1 as [|x l l' _ IH|x y l|l l' l'' _ IH1 _ IH2]; cbn [filter].
  - reflexivity.
  - destruct (f x); cbn [length]; now rewrite IH.
  - destruct (f x), (f y); reflexivity.
  - now rewrite IH1.
Qed.

(** X18. The order of the training lines does not matter for the stores:
    training on a permutation of the lines records the same frequency for
    every rule under every MSD. *)
Theorem training_order_independent
    (A : arith) (reversed : bool) (lines lines' : list line)
    (P S P' S' : store) :
  Permutation lines lines' ->
  train_lines A reversed lines ([], []) = Some (P, S) ->
  train_lines A reversed lines' ([], []) = Some (P', S') ->
  forall msd r, freq msd r P = freq msd r P' /\ freq msd r S = freq msd r S'.
Proof.
  intros Hperm E E' msd r.
  destruct (train_lines_spec A reversed lines ([], [])) as (st & E1 & H).
  destruct (train_lines_spec A reversed lines' ([], [])) as (st' & E1' & H').
  rewrite E in E1. injection E1 as <-. rewrite E' in E1'. injection E1' as <-.
  destruct (H msd r) as [Hp Hs], (H' msd r) as [Hp' Hs'].
  cbn [fst snd] in *. rewrite Hp, Hs, Hp', Hs'.
  now rewrite !(filter_length_perm _ _ _ _ Hperm).
Qed.

Lemma training_order_independent_witness :
  freq $"V" ($">", $"s>") [($"V", [(($"<", $"<"), 2%Z)])]
  = freq $"V" ($">", $"s>") [($"V", [(($"<", $"<"), 2%Z)])]
  /\ freq $"V" ($">", $"s>")
       [($"V", [(($"a>", $"as>"), 1%Z); (($">", $"s>"), 2%Z);
                (($">", $">"), 2%Z); (($"b>", $"bs>"), 1%Z)])]
     = freq $"V" ($">", $"s>")
         [($"V", [(($"b>", $"bs>"), 1%Z); (($">", $"s>"), 2%Z);
                  (($">", $">"), 2%Z); (($"a>", $"as>"), 1%Z)])].
Proof.
  apply (training_order_independent float_arith false
           [($"a", $"V", $"as"); ($"b", $"V", $"bs")]
           [($"b", $"V", $"bs"); ($"a", $"V", $"as")]).
  - apply perm_swap.
  - vm_compute. reflexivity.
  - vm_compute. reflexivity.
Defined.

Lemma bias_defined (lines : list line) (b : nat * nat) :
  exists b', bias lines b = Some b'.
Proof.
  revert b. induction lines as [|[[lemma msd] form] lines IH]; intros b.
  - now exists b.
  - cbn [bias]. unfold bias_line, halign.
    destruct (halign_fold lemma form) as (u & l & -> & _). cbn [fst].
    match goal with |- context [if ?c then _ else _] => destruct c end;
      apply IH.
Qed.

(** X19. Training raises neither of the two errors its own statements can
    raise: for every list of well-formed lines, no call of [halign] in the
    bias vote reads [bu] or [bl] unbound and no access [storage[msd]] in
    the accumulation misses its key, so that [train], whose [None] stands
    for exactly these two errors, yields the bias flag and the two stores
    that [train_lines] builds under that flag. *)
Theorem train_raises_no_unbound_or_key_error
    (A : arith) (lines : list line) :
  exists reversed allprules allsrules,
    train A lines = Some (reversed, allprules, allsrules)
    /\ train_lines A reversed lines ([], []) = Some (allprules, allsrules).
Proof.
  unfold train. destruct (bias_defined lines (0, 0)) as ([p s] & ->).
  destruct (train_lines_spec A (s <? p) lines ([], [])) as ([P S] & E & _).
  exists (s <? p), P, S. now rewrite E.
Qed.

Lemma ruleset_put_absent (r : rule) (f : Z) (rs : ruleset) :
  ruleset_get r rs = None -> ruleset_put r f rs = rs ++ [(r, f)].
Proof.
  induction rs as [|[k g] rs IH]; cbn [ruleset_get ruleset_put app];
    [reflexivity|].
  destruct (rule_eqb r k); [discriminate|]. intros H. now rewrite IH.
Qed.

Lemma count_rules_fresh (msd : str) (rules : list rule) (rs : ruleset) :
  NoDup rules ->
  (forall r, In r rules -> ruleset_get r rs = None) ->
  count_rules msd rules [(msd, rs)]
  = Some [(msd, rs ++ map (fun r => (r, 1%Z)) rules)].
Proof.
  revert rs. induction rules as [|r0 rules IH]; intros rs Hnd Hfresh.
  - cbn. now rewrite app_nil_r.
  - cbn [count_rules store_get]. rewrite str_eqb_refl.
    inversion Hnd as [|? ? Hnot Hnd']; subst.
    rewrite (Hfresh r0) by now left.
    cbn [store_put]. rewrite str_eqb_refl.
    rewrite IH; [|exact Hnd'|].
    + rewrite ruleset_put_absent by (apply Hfresh; now left).
      cbn [map]. now rewrite <- app_assoc.
    + intros r Hr. rewrite ruleset_get_put_other.
      * apply Hfresh. now right.
      * intros ->. contradiction.
Qed.

Lemma init_msd_empty (msd : str) (rules : list rule) :
  rules <> [] -> init_msd msd rules [] = [(msd, [])].
Proof. destruct rules; [congruence|reflexivity]. Qed.

Lemma rule_sets_nonempty (A : arith) (lemma form : str) :
  fst (prefix_suffix_rules_get A lemma form) <> []
  /\ snd (prefix_suffix_rules_get A lemma form) <> [].
Proof.
  pose proof (anchor_rules_present A lemma form) as H.
  destruct (alignprs A lemma form) as [[[[[lp lr] ls] fp] fr] fs].
  destruct H as [Hp Hs]. split; intros E; [rewrite E in Hp|rewrite E in Hs];
    contradiction.
Qed.

Lemma train_single_line (A : arith) (reversed : bool) (lemma msd form : str) :
  let rules :=
    prefix_suffix_rules_get A (orient reversed lemma) (orient reversed form) in
  train_lines A reversed [(lemma, msd, form)] ([], [])
  = Some (single_store msd (fst rules), single_store msd (snd rules)).
Proof.
  cbv zeta. cbn [train_lines]. unfold train_line.
  pose proof (prefix_suffix_rules_NoDup A (orient reversed lemma)
                (orient reversed form)) as [Np Ns].
  pose proof (rule_sets_nonempty A (orient reversed lemma)
                (orient reversed form)) as [Ep Es].
  destruct (prefix_suffix_rules_get A (orient reversed lemma)
              (orient reversed form)) as [prules srules].
  cbn [fst snd] in *.
  rewrite !init_msd_empty by assumption.
  rewrite !count_rules_fresh by (assumption || reflexivity). reflexivity.
Qed.

(** X20. Training on a single line, from empty stores, builds exactly the
    two one-MSD stores that hold each extracted rule once with frequency
    1, in the order the rule sets are iterated. *)
Theorem single_line_training_store
    (A : arith) (reversed : bool) (lemma msd form : str) :
  let rules :=
    prefix_suffix_rules_get A (orient reversed lemma) (orient reversed form) in
  train_lines A reversed [(lemma, msd, form)] ([], [])
  = Some ([(msd, map (fun r => (r, 1%Z)) (fst rules))],
          [(msd, map (fun r => (r, 1%Z)) (snd rules))]).
Proof. exact (train_single_line A reversed lemma msd form). Qed.

Lemma reserved_free_orient (reversed : bool) (s : str) :
  reserved_free s -> reserved_free (orient reversed s).
Proof.
  destruct reversed; [|trivial]. unfold reserved_free, orient.
  intros (H1 & H2 & H3).
  repeat split; intros H; apply in_rev in H; contradiction.
Qed.

(** X21. Train, then predict, on one example: when lemma and form contain
    no reserved symbol and their alignment (after the reversal the bias
    flag asks for) starts with no gap-marker on either side, training on
    that single line and predicting for the same lemma and MSD gives the
    form back, in both orientations. *)
Theorem train_then_predict_round_trip
    (A : arith) (reversed : bool) (lemma msd form : str) :
  reserved_free lemma -> reserved_free form ->
  (let al := levenshtein A (lit_1_0 A) (lit_1_0 A) (lit_1_1 A)
               (orient reversed lemma) (orient reversed form) in
   leading_gaps (fst (fst al)) = 0 /\ leading_gaps (snd (fst al)) = 0) ->
  exists allprules allsrules,
    train_lines A reversed [(lemma, msd, form)] ([], [])
    = Some (allprules, allsrules)
    /\ predict reversed lemma msd allprules allsrules = form.
Proof.
  intros Rl Rf [Ha Hb]. eexists _, _. split; [apply train_single_line|].
  assert (H : apply_best_rule (orient reversed lemma) msd
                (single_store msd
                   (fst (prefix_suffix_rules_get A (orient reversed lemma)
                           (orient reversed form))))
                (single_store msd
                   (snd (prefix_suffix_rules_get A (orient reversed lemma)
                           (orient reversed form))))
              = orient reversed form).
  { apply (round_trip_without_prefix_change A); try assumption;
      try apply Permutation_refl; now apply reserved_free_orient. }
  unfold predict. destruct reversed; cbn [orient] in H |- *; rewrite H;
    [apply rev_involutive|reflexivity].
Qed.

Lemma train_then_predict_round_trip_witness :
  exists allprules allsrules,
    train_lines float_arith false [($"walk", $"V;PST", $"walked")] ([], [])
    = Some (allprules, allsrules)
    /\ predict false $"walk" $"V;PST" allprules allsrules = $"walked".
Proof.
  apply train_then_predict_round_trip.
  - unfold reserved_free. cbn.
    repeat split; intros H;
      repeat (destruct H as [H|H]; [discriminate H|]); exact H.
  - unfold reserved_free. cbn.
    repeat split; intros H;
      repeat (destruct H as [H|H]; [discriminate H|]); exact H.
  - split; vm_compute; reflexivity.
Defined.

(** ** Edit-distance aligner: optimality *)

Lemma pick3_le (a b c : entry Qc_arith) :
  (snd (pick3 a b c) <= snd a)%Qc
  /\ (snd (pick3 a b c) <= snd b)%Qc
  /\ (snd (pick3 a b c) <= snd c)%Qc.
Proof.
  unfold pick3. cbn [lt Qc_arith].
  destruct (Qc_ltb (snd b) (snd a)) eqn:E1.
  - apply Qc_ltb_lt, Qclt_le_weak in E1.
    destruct (Qc_ltb (snd c) (snd b)) eqn:E2.
    + apply Qc_ltb_lt, Qclt_le_weak in E2.
      repeat split; [|exact E2|apply Qcle_refl].
      now apply Qcle_trans with (snd b).
    + apply Qc_ltb_ge in E2. repeat split; [exact E1|apply Qcle_refl|exact E2].
  - apply Qc_ltb_ge in E1.
    destruct (Qc_ltb (snd c) (snd a)) eqn:E2.
    + apply Qc_ltb_lt, Qclt_le_weak in E2.
      repeat split; [exact E2| |apply Qcle_refl].
      now apply Qcle_trans with (snd a).
    + apply Qc_ltb_ge in E2. repeat split; [apply Qcle_refl|exact E1|exact E2].
Qed.

Section UnitCosts.

Local Open Scope Qc_scope.

Variable substcost : Qc.

Let frg1 := frag_rec Qc_arith (Q2Qc 1) (Q2Qc 1) substcost.

Lemma frag_nil_l (t : str) :
  frg1 [] t = (repeat gap (length t), t, of_len Qc_arith (length t)).
Proof. destruct t; reflexivity. Qed.

Lemma frag_nil_r (s : str) :
  frg1 s [] = (s, repeat gap (length s), of_len Qc_arith (length s)).
Proof. destruct s; reflexivity. Qed.

Lemma of_len_S (n : nat) :
  of_len Qc_arith (S n) = 1 + of_len Qc_arith n.
Proof. rewrite Qcplus_comm. apply F_S. Qed.

Lemma Qcplus_le_l (a b c : Qc) : b <= c -> a + b <= a + c.
Proof. intros H. apply Qcplus_le_compat; [apply Qcle_refl|exact H]. Qed.

(** No edit script is cheaper than the fragment the aligner computes. *)
Lemma frag_cost_le_script (es : list edit) :
  snd (frg1 (script_source es) (script_target es))
  <= script_cost substcost es.
Proof.
  induction es as [|[x y|y|x] es IH];
    cbn [script_source script_target script_cost].
  - cbn. apply Qcle_refl.
  - unfold frg1. rewrite frag_rec_cons. cbv zeta. fold frg1.
    match goal with |- snd (pick3 ?a ?b ?c) <= _ =>
      destruct (pick3_le a b c) as (L1 & _ & _) end.
    eapply Qcle_trans; [exact L1|]. cbn [snd add zero Qc_arith].
    now apply Qcplus_le_l.
  - destruct (script_source es) as [|x s] eqn:Es.
    + rewrite frag_nil_l in *. cbn [snd length] in *. rewrite of_len_S.
      now apply Qcplus_le_l.
    + unfold frg1. rewrite frag_rec_cons. cbv zeta. fold frg1.
      match goal with |- snd (pick3 ?a ?b ?c) <= _ =>
        destruct (pick3_le a b c) as (_ & L2 & _) end.
      eapply Qcle_trans; [exact L2|]. cbn [snd add Qc_arith].
      now apply Qcplus_le_l.
  - destruct (script_target es) as [|y t] eqn:Et.
    + rewrite frag_nil_r in *. cbn [snd length] in *. rewrite of_len_S.
      now apply Qcplus_le_l.
    + unfold frg1. rewrite frag_rec_cons. cbv zeta. fold frg1.
      match goal with |- snd (pick3 ?a ?b ?c) <= _ =>
        destruct (pick3_le a b c) as (_ & _ & L3) end.
      eapply Qcle_trans; [exact L3|]. cbn [snd add Qc_arith].
      now apply Qcplus_le_l.
Qed.

(** The fragment is itself drawn by an edit script of its cost. *)
Lemma frag_has_script (s t : str) :
  exists es,
    script_source es = s /\ script_target es = t
    /\ script_top es = fst (fst (frg1 s t))
    /\ script_bottom es = snd (fst (frg1 s t))
    /\ script_cost substcost es = snd (frg1 s t).
Proof.
  revert t. induction s as [|x s IHs]; intros t; induction t as [|y t IHt].
  - exists []. now repeat split.
  - destruct IHt as (es & H1 & H2 & H3 & H4 & H5).
    rewrite frag_nil_l in *. cbn [fst snd length repeat] in *.
    exists (Insert y :: es).
    cbn [script_source script_target script_top script_bottom script_cost].
    rewrite H1, H2, H3, H4, H5, of_len_S. now repeat split.
  - destruct (IHs []) as (es & H1 & H2 & H3 & H4 & H5).
    rewrite frag_nil_r in *. cbn [fst snd length repeat] in *.
    exists (Delete x :: es).
    cbn [script_source script_target script_top script_bottom script_cost].
    rewrite H1, H2, H3, H4, H5, of_len_S. now repeat split.
  - unfold frg1. rewrite frag_rec_cons. cbv zeta. fold frg1.
    match goal with |- context [pick3 ?a ?b ?c] =>
      destruct (pick3_cases a b c) as [ -> | [ -> | -> ] ] end;
      cbn [fst snd add zero Qc_arith].
    + destruct (IHs t) as (es & H1 & H2 & H3 & H4 & H5).
      exists (Keep x y :: es).
      cbn [script_source script_target script_top script_bottom script_cost].
      rewrite H1, H2, H3, H4, H5. now repeat split.
    + destruct IHt as (es & H1 & H2 & H3 & H4 & H5).
      exists (Insert y :: es).
      cbn [script_source script_target script_top script_bottom script_cost].
      rewrite H1, H2, H3, H4, H5. now repeat split.
    + destruct (IHs (y :: t)) as (es & H1 & H2 & H3 & H4 & H5).
      exists (Delete x :: es).
      cbn [script_source script_target script_top script_bottom script_cost].
      rewrite H1, H2, H3, H4, H5. now repeat split.
Qed.

End UnitCosts.

(** X22. With insertion and deletion cost 1, as the aligner is called
    everywhere in the program, and exact arithmetic, [levenshtein] returns
    a minimum-cost alignment: the two aligned strings are the rows of an
    edit script from [s] to [t] whose cost is the returned cost, and no
    edit script from [s] to [t] costs less. *)
Theorem levenshtein_unit_costs_optimal (substcost : Qc) (s t : str) :
  let al := levenshtein Qc_arith (Q2Qc 1) (Q2Qc 1) substcost s t in
  (exists es,
     script_source es = s /\ script_target es = t
     /\ script_top es = fst (fst al) /\ script_bottom es = snd (fst al)
     /\ script_cost substcost es = snd al)
  /\ (forall es,
        script_source es = s -> script_target es = t ->
        (snd al <= script_cost substcost es)%Qc).
Proof.
  cbv zeta. rewrite (levenshtein_frag Qc_arith _ _ _ Qc_arith_exact).
  cbn [fst snd add zero Qc_arith]. rewrite Qcplus_0_l. split.
  - apply frag_has_script.
  - intros es <- <-. apply frag_cost_le_script.
Qed.

Section SelfAlignment.

Local Open Scope Qc_scope.

Variables inscost delcost substcost : Qc.
Hypothesis ins_pos : 0 < inscost.
Hypothesis del_pos : 0 < delcost.
Hypothesis subst_nonneg : 0 <= substcost.

Let frg2 := frag_rec Qc_arith inscost delcost substcost.

Lemma Qcplus_nonneg (a b : Qc) : 0 <= a -> 0 <= b -> 0 <= a + b.
Proof.
  intros Ha Hb. rewrite <- (Qcplus_0_l 0). now apply Qcplus_le_compat.
Qed.

Lemma frag_cost_nonneg (s t : str) : 0 <= snd (frg2 s t).
Proof.
  revert t. induction s as [|x s IHs]; intros t; induction t as [|y t IHt];
    try (unfold frg2; cbn [frag_rec snd]; apply F_nonneg).
  unfold frg2. rewrite frag_rec_cons. cbv zeta. fold frg2.
  match goal with |- context [pick3 ?a ?b ?c] =>
    destruct (pick3_cases a b c) as [ -> | [ -> | -> ] ] end;
    cbn [snd add zero Qc_arith]; apply Qcplus_nonneg;
    try apply IHs; try apply IHt; try now apply Qclt_le_weak.
  destruct (Ascii.eqb x y); [apply Qcle_refl|exact subst_nonneg].
Qed.

Lemma frag_self (s : str) : frg2 s s = (s, s, Q2Qc 0).
Proof.
  induction s as [|x s IH]; [reflexivity|].
  unfold frg2. rewrite frag_rec_cons. cbv zeta. fold frg2.
  rewrite IH, Ascii.eqb_refl. cbn [fst snd add zero Qc_arith].
  rewrite Qcplus_0_l. unfold pick3. cbn [snd lt Qc_arith].
  assert (E2 : Qc_ltb (inscost + snd (frg2 (x :: s) s)) 0 = false).
  { apply Qc_ltb_ge. apply Qcplus_nonneg;
      [now apply Qclt_le_weak|apply frag_cost_nonneg]. }
  assert (E3 : Qc_ltb (delcost + snd (frg2 s (x :: s))) 0 = false).
  { apply Qc_ltb_ge. apply Qcplus_nonneg;
      [now apply Qclt_le_weak|apply frag_cost_nonneg]. }
  rewrite E2. cbn [snd]. now rewrite E3.
Qed.

End SelfAlignment.

(** X23. In exact arithmetic, with positive insertion and deletion costs
    and a non-negative substitution cost, aligning a string with itself
    returns the string twice, without any gap-marker, at cost 0. *)
Theorem levenshtein_self_alignment
    (inscost delcost substcost : Qc) (s : str) :
  (0 < inscost)%Qc -> (0 < delcost)%Qc -> (0 <= substcost)%Qc ->
  levenshtein Qc_arith inscost delcost substcost s s = (s, s, Q2Qc 0).
Proof.
  intros Hi Hd Hs. rewrite (levenshtein_frag Qc_arith _ _ _ Qc_arith_exact).
  rewrite (frag_self inscost delcost substcost Hi Hd Hs).
  cbn [fst snd add zero Qc_arith]. now rewrite Qcplus_0_l.
Qed.

Lemma levenshtein_self_alignment_witness :
  levenshtein Qc_arith (lit_1_0 Qc_arith) (lit_1_0 Qc_arith)
    (lit_1_1 Qc_arith) $"walk" $"walk" = ($"walk", $"walk", Q2Qc 0).
Proof.
  apply levenshtein_self_alignment; vm_compute; congruence.
Defined.

(** ** Segmenter and rule extractor: shape of the parts *)

Lemma firstn_leading_gaps (s : str) :
  firstn (leading_gaps s) s = repeat gap (leading_gaps s).
Proof.
  induction s as [|x s IH]; [reflexivity|]. unfold leading_gaps in *.
  cbn [lstrip]. pose proof (lstrip_length gap s).
  destruct (Ascii.eqb_spec x gap) as [->|Hx].
  - replace (length (gap :: s) - length (lstrip gap s))
      with (S (length s - length (lstrip gap s))) by (cbn [length]; lia).
    cbn [firstn repeat]. now rewrite IH.
  - now rewrite Nat.sub_diag.
Qed.

Lemma skipn_trailing_gaps (s : str) :
  skipn (length s - leading_gaps (rev s)) s
  = repeat gap (leading_gaps (rev s)).
Proof.
  pose proof (firstn_leading_gaps (rev s)) as H.
  rewrite firstn_rev in H. apply (f_equal (@rev ascii)) in H.
  rewrite rev_involutive in H. rewrite H.
  generalize (leading_gaps (rev s)). intros n.
  induction n as [|n IH]; [reflexivity|]. cbn [repeat rev].
  rewrite IH. clear. induction n as [|n IH]; [reflexivity|].
  cbn [repeat app]. now rewrite IH.
Qed.

(** X24. In the parts [alignprs] returns, the prefix part is made of
    gap-markers only on one of the two sides, and so is the suffix part:
    each affix region is a pure insertion or a pure deletion. *)
Theorem alignprs_affix_is_one_sided (A : arith) (lemma form : str) :
  let '(lp, lr, ls, fp, fr, fs) := alignprs A lemma form in
  (lp = repeat gap (length lp) \/ fp = repeat gap (length fp))
  /\ (ls = repeat gap (length ls) \/ fs = repeat gap (length fs)).
Proof.
  unfold alignprs.
  pose proof (Align_length _ _ _ _
                (levenshtein_Align A (lit_1_0 A) (lit_1_0 A) (lit_1_1 A)
                   lemma form)) as Hlen.
  set (al := levenshtein A (lit_1_0 A) (lit_1_0 A) (lit_1_1 A) lemma form)
    in *.
  set (a := fst (fst al)) in *. set (b := snd (fst al)) in *.
  unfold slice, slice_from. cbn [skipn]. rewrite !Nat.sub_0_r. split.
  - destruct (Nat.max_spec (leading_gaps a) (leading_gaps b))
      as [[_ ->]|[_ ->]]; [right|left];
      rewrite firstn_leading_gaps; now rewrite repeat_length.
  - destruct (Nat.max_spec (leading_gaps (rev a)) (leading_gaps (rev b)))
      as [[_ ->]|[_ ->]]; [right; rewrite Hlen|left];
      rewrite skipn_trailing_gaps; now rewrite repeat_length.
Qed.

(** The root and suffix parts together are a suffix of the aligned
    string, cut at the same column on both sides. *)
Lemma alignprs_root_suffix (A : arith) (lemma form : str) :
  let al := levenshtein A (lit_1_0 A) (lit_1_0 A) (lit_1_1 A) lemma form in
  let '(lp, lr, ls, fp, fr, fs) := alignprs A lemma form in
  exists k, lr ++ ls = skipn k (fst (fst al))
            /\ fr ++ fs = skipn k (snd (fst al)).
Proof.
  cbv zeta. unfold alignprs.
  set (al := levenshtein A (lit_1_0 A) (lit_1_0 A) (lit_1_1 A) lemma form).
  set (a := fst (fst al)). set (b := snd (fst al)).
  set (L := Nat.max (leading_gaps a) (leading_gaps b)).
  set (T := Nat.max (leading_gaps (rev a)) (leading_gaps (rev b))).
  exists (Nat.min L (length a - T)). unfold slice, slice_from.
  destruct (Nat.le_gt_cases L (length a - T)) as [Hle|Hgt].
  - rewrite Nat.min_l by exact Hle.
    replace (skipn (length a - T) a)
      with (skipn (length a - T - L) (skipn L a))
      by (rewrite skipn_skipn; f_equal; lia).
    replace (skipn (length a - T) b)
      with (skipn (length a - T - L) (skipn L b))
      by (rewrite skipn_skipn; f_equal; lia).
    now rewrite !firstn_skipn.
  - rewrite Nat.min_r by lia.
    replace (length a - T - L) with 0 by lia. split; reflexivity.
Qed.

(** X25. For a lemma and a form without gap-marker, every suffix rule
    that [prefix_suffix_rules_get] extracts rewrites a suffix of
    [lemma + ">"] into a suffix of [form + ">"]; in particular its input
    pattern occurs in ["<" + lemma + ">"], so the rule is applicable to
    the lemma it was extracted from. *)
Theorem suffix_rules_map_suffixes
    (A : arith) (lemma form : str) (r : rule) :
  gap_free lemma -> gap_free form ->
  In r (snd (prefix_suffix_rules_get A lemma form)) ->
  (exists u, lemma ++ [rmark] = u ++ fst r)
  /\ (exists v, form ++ [rmark] = v ++ snd r)
  /\ contains (fst r) ([lmark] ++ lemma ++ [rmark]) = true.
Proof.
  intros Gl Gf Hin.
  pose proof (alignprs_root_suffix A lemma form) as Hk. cbv zeta in Hk.
  pose proof (levenshtein_Align A (lit_1_0 A) (lit_1_0 A) (lit_1_1 A)
                lemma form) as Hal.
  unfold prefix_suffix_rules_get in Hin.
  destruct (alignprs A lemma form) as [[[[[lp lr] ls] fp] fr] fs].
  cbn [snd] in Hin. destruct Hk as (k & Ea & Eb).
  set (a := fst (fst (levenshtein A (lit_1_0 A) (lit_1_0 A) (lit_1_1 A)
                        lemma form))) in *.
  set (b := snd (fst (levenshtein A (lit_1_0 A) (lit_1_0 A) (lit_1_1 A)
                        lemma form))) in *.
  rewrite !app_assoc, Ea, Eb in Hin. unfold generate_rules in Hin.
  apply nodup_In, in_map_iff in Hin as ([x y] & <- & Hin).
  apply nodup_In, in_map_iff in Hin as (i & E & Hi).
  injection E as <- <-. apply in_seq in Hi. cbn [fst snd].
  rewrite !length_app in Hi. cbn [length] in Hi.
  rewrite !replace_char_nil.
  fold (strip_gaps (skipn i (skipn k a ++ [rmark]))).
  fold (strip_gaps (skipn i (skipn k b ++ [rmark]))).
  rewrite !skipn_app.
  replace (i - length (skipn k a)) with 0 by lia.
  replace (i - length (skipn k b)) with 0 by lia.
  cbn [skipn]. rewrite !skipn_skipn, !strip_gaps_app.
  change (strip_gaps [rmark]) with [rmark].
  assert (Hu : lemma ++ [rmark]
               = strip_gaps (firstn (i + k) a)
                 ++ strip_gaps (skipn (i + k) a) ++ [rmark]).
  { rewrite app_assoc, <- strip_gaps_app, firstn_skipn.
    f_equal. symmetry. now apply Align_strip_l with form b. }
  assert (Hv : form ++ [rmark]
               = strip_gaps (firstn (i + k) b)
                 ++ strip_gaps (skipn (i + k) b) ++ [rmark]).
  { rewrite app_assoc, <- strip_gaps_app, firstn_skipn.
    f_equal. symmetry. now apply Align_strip_r with lemma a. }
  split; [eexists; exact Hu|]. split; [eexists; exact Hv|].
  apply contains_spec.
  exists ([lmark] ++ strip_gaps (firstn (i + k) a)), [].
  rewrite app_nil_r, <- app_assoc. f_equal. exact Hu.
Qed.

Lemma suffix_rules_map_suffixes_witness :
  (exists u, $"walk" ++ [rmark] = u ++ fst ($"k>", $"ked>"))
  /\ (exists v, $"walked" ++ [rmark] = v ++ snd ($"k>", $"ked>"))
  /\ contains (fst ($"k>", $"ked>")) ([lmark] ++ $"walk" ++ [rmark]) = true.
Proof.
  apply (suffix_rules_map_suffixes float_arith $"walk" $"walked").
  - unfold gap_free. cbn. intros H.
    repeat (destruct H as [H|H]; [discriminate H|]). exact H.
  - unfold gap_free. cbn. intros H.
    repeat (destruct H as [H|H]; [discriminate H|]). exact H.
  - vm_compute. repeat first [left; reflexivity | right].
Defined.

(** ** Edit-distance aligner: size of the cache *)

Section CacheSize.

Variable A : arith.
Variables inscost delcost substcost : num A.

(** [k] is a pair of suffixes of [sr] and [tr], [n] characters shorter in
    all. *)
Let cut (n : nat) (k : str * str) (sr tr : str) : Prop :=
  exists i j, fst k = skipn i sr /\ snd k = skipn j tr
              /\ i <= length sr /\ j <= length tr /\ n <= i + j.

(** What a call adds to the cache: keys that were there, or keys cut from
    the remaining suffixes by [n] characters at least; and no key twice. *)
Let grows (n : nat) (sr tr : str) (c c' : cache A) : Prop :=
  (forall k, In k (cache_keys A c') ->
             In k (cache_keys A c) \/ cut n k sr tr)
  /\ (NoDup (cache_keys A c) -> NoDup (cache_keys A c')).

Lemma key_eqb_refl (k : str * str) : key_eqb k k = true.
Proof. unfold key_eqb. now rewrite !str_eqb_refl. Qed.

Lemma cache_get_miss (k : str * str) (c : cache A) :
  cache_get k c = None -> ~ In k (cache_keys A c).
Proof.
  induction c as [|[k' e] c IH]; cbn [cache_get cache_keys map];
    [intros _ []|].
  destruct (key_eqb k k') eqn:E; [discriminate|]. intros H [Hk|Hk].
  - cbn in Hk. subst k'. now rewrite key_eqb_refl in E.
  - now apply IH.
Qed.

Lemma cut_whole (sr tr : str) : cut 0 (sr, tr) sr tr.
Proof. exists 0, 0. cbn. repeat split; lia. Qed.

Lemma cut_not_whole (k : str * str) (sr tr : str) :
  cut 1 k sr tr -> k <> (sr, tr).
Proof.
  intros (i & j & Hi & Hj & Li & Lj & Hn) ->. cbn [fst snd] in *.
  apply (f_equal (@length ascii)) in Hi, Hj.
  rewrite length_skipn in Hi, Hj. lia.
Qed.

Lemma cut_weaken (n : nat) (k : str * str) (sr tr : str) :
  cut n k sr tr -> cut 0 k sr tr.
Proof.
  intros (i & j & H). exists i, j. repeat split; try apply H. lia.
Qed.

Lemma cut_tail_both (n : nat) (k : str * str) (x y : ascii) (sr tr : str) :
  cut n k sr tr -> cut 1 k (x :: sr) (y :: tr).
Proof.
  intros (i & j & Hi & Hj & Li & Lj & _). exists (S i), (S j).
  cbn [skipn length]. repeat split; try assumption; lia.
Qed.

Lemma cut_tail_r (n : nat) (k : str * str) (y : ascii) (sr tr : str) :
  cut n k sr tr -> cut 1 k sr (y :: tr).
Proof.
  intros (i & j & Hi & Hj & Li & Lj & _). exists i, (S j).
  cbn [skipn length]. repeat split; try assumption; lia.
Qed.

Lemma cut_tail_l (n : nat) (k : str * str) (x : ascii) (sr tr : str) :
  cut n k sr tr -> cut 1 k (x :: sr) tr.
Proof.
  intros (i & j & Hi & Hj & Li & Lj & _). exists (S i), j.
  cbn [skipn length]. repeat split; try assumption; lia.
Qed.

Lemma grows_refl (n : nat) (sr tr : str) (c : cache A) : grows n sr tr c c.
Proof. split; [now left|trivial]. Qed.

(** The decorator stores at most the key of the call, and only when the
    body left it out. *)
Lemma wrap_grows (func : cache A -> res A * cache A)
    (sp tp sr tr : str) (cost : num A) (c : cache A) :
  grows 1 sr tr c (snd (func c)) ->
  grows 0 sr tr c (snd (wrap func sp tp sr tr cost c)).
Proof.
  intros [Hk Hnd]. unfold wrap.
  destruct (cache_get (sr, tr) c) as [[[a b] d]|] eqn:E.
  - apply grows_refl.
  - destruct (func c) as [r c1]. cbn [snd] in *. unfold cache_set. split.
    + cbn [cache_keys map fst]. intros k [<-|Hin].
      * right. apply cut_whole.
      * destruct (Hk k Hin) as [H|H]; [now left|right].
        now apply cut_weaken with 1.
    + intros Hc. cbn [cache_keys map fst]. constructor; [|now apply Hnd].
      intros Hin. destruct (Hk _ Hin) as [H|H].
      * now apply cache_get_miss in E.
      * now apply cut_not_whole in H.
Qed.

Lemma lrec_rec_grows (sr tr sp tp : str) (cost : num A) (c : cache A) :
  grows 0 sr tr c
    (snd (lrec_rec A inscost delcost substcost sr tr sp tp cost c)).
Proof.
  revert tr sp tp cost c.
  induction sr as [|x sr IHs]; intros tr;
    induction tr as [|y tr IHt]; intros sp tp cost c.
  1-3: cbn [lrec_rec]; apply wrap_grows; cbn [snd]; apply grows_refl.
  rewrite lrec_rec_cons. apply wrap_grows. cbv zeta.
  set (addcost := if Ascii.eqb x y then zero A else substcost).
  pose proof (IHs tr (sp ++ [x]) (tp ++ [y]) (add A cost addcost) c)
    as [K1 N1].
  destruct (lrec_rec A inscost delcost substcost sr tr (sp ++ [x])
              (tp ++ [y]) (add A cost addcost) c) as [a1 c1].
  pose proof (IHt (sp ++ [gap]) (tp ++ [y]) (add A cost inscost) c1)
    as [K2 N2].
  destruct (lrec_rec A inscost delcost substcost (x :: sr) tr (sp ++ [gap])
              (tp ++ [y]) (add A cost inscost) c1) as [a2 c2].
  pose proof (IHs (y :: tr) (sp ++ [x]) (tp ++ [gap]) (add A cost delcost) c2)
    as [K3 N3].
  destruct (lrec_rec A inscost delcost substcost sr (y :: tr) (sp ++ [x])
              (tp ++ [gap]) (add A cost delcost) c2) as [a3 c3].
  cbn [snd] in *. split; [|auto].
  intros k Hk.
  destruct (K3 k Hk) as [H3|H3]; [|right; now apply cut_tail_l with 0].
  destruct (K2 k H3) as [H2|H2]; [|right; now apply cut_tail_r with 0].
  destruct (K1 k H2) as [H1|H1]; [now left|right].
  now apply cut_tail_both with 0.
Qed.

Lemma cut_in_suffixes (n : nat) (k : str * str) (s t : str) :
  cut n k s t -> In k (list_prod (suffixes s) (suffixes t)).
Proof.
  intros (i & j & Hi & Hj & Li & Lj & _). destruct k as [k1 k2].
  cbn [fst snd] in *. subst. apply in_prod; unfold suffixes;
    apply in_map_iff; eexists; (split; [reflexivity|]); apply in_seq; lia.
Qed.

Lemma final_cache_shape (s t : str) :
  let c := snd (lrec A inscost delcost substcost [] [] s t (zero A) []) in
  NoDup (cache_keys A c)
  /\ incl (cache_keys A c) (list_prod (suffixes s) (suffixes t)).
Proof.
  cbv zeta. unfold lrec.
  destruct (lrec_rec_grows s t [] [] (zero A) []) as [K N]. split.
  - apply N. constructor.
  - intros k Hk. destruct (K k Hk) as [[]|H]. now apply cut_in_suffixes with 0.
Qed.

End CacheSize.

(** X26. The cache that one call of [levenshtein] fills holds each key
    once, every key is a pair of a suffix of [s] and a suffix of [t], and
    so it never has more than [(len(s) + 1) * (len(t) + 1)] entries,
    whatever the costs. *)
Theorem levenshtein_cache_is_quadratic
    (A : arith) (inscost delcost substcost : num A) (s t : str) :
  let c := snd (lrec A inscost delcost substcost [] [] s t (zero A) []) in
  NoDup (cache_keys A c)
  /\ (forall k, In k (cache_keys A c) ->
        exists i j, k = (skipn i s, skipn j t))
  /\ length c <= (length s + 1) * (length t + 1).
Proof.
  cbv zeta.
  destruct (final_cache_shape A inscost delcost substcost s t) as [Hnd Hincl].
  split; [exact Hnd|]. split.
  - intros [k1 k2] Hk. apply Hincl, in_prod_iff in Hk as [H1 H2].
    unfold suffixes in H1, H2.
    apply in_map_iff in H1 as (i & <- & _), H2 as (j & <- & _).
    now exists i, j.
  - pose proof (NoDup_incl_length Hnd Hincl) as H.
    unfold cache_keys in H. rewrite length_map in H.
    rewrite length_prod in H. unfold suffixes in H.
    rewrite !length_map, !length_seq in H. lia.
Qed.
